(** * Smart Merge: reversible vertex welding (smart_merge.py)

    A shallow embedding of [smart_merge_topo] and [smart_restore_topo] and of
    the two helpers [store_merge_data] / [load_merge_data], followed by the
    properties of the clustering, the remapping tables, the face rewrite and
    the restore reconstruction.

    Conventions of the embedding.
    - A vertex coordinate is a triple of integers: every finite binary
      floating-point value is an integer multiple of one fixed unit, so a
      triple of [Z] in that unit stands for a coordinate exactly; distances
      are compared exactly (no rounding).
    - Python dictionaries are [gmap]s; [merge_map] and the stored mapping are
      keyed by [str i], the decimal rendering of the vertex id.
    - Python exceptions are values of [PyExc]; a function that can raise runs
      in the monad [M] that threads the host state (created data blocks and
      the console) and stops at the first exception.
    - The iteration order of a Python [set] is not fixed by the language; it
      is a parameter ([PySetOrder]). *)

From stdpp Require Import base gmap sets list strings pretty sorting.
From Stdlib Require Import ZArith Lia.

Local Open Scope Z_scope.

(** ** Data model *)

(** A coordinate [v.co] as [list(v.co)] reads it: three numbers. *)
Definition Co : Type := Z * Z * Z.

(** Mesh data block: what [from_pydata(verts, [], faces)] is given. *)
Record Mesh := mkMesh {
  mesh_name : string;
  vertices : list Co;
  polygons : list (list nat)
}.

(** The decoded JSON record kept under [MERGE_TAG]. [json.dumps] turns the
    integer keys of [idx_map] into strings; values are JSON integers. *)
Record MergeData := mkMergeData {
  mapping : gmap string Z;
  original_coords : list Co;
  original_faces : list (list nat)
}.

(** A scene object: its name, its mesh ([obj.data]) and its custom
    properties ([obj[key]]). *)
Record Object := mkObject {
  obj_name : string;
  data : Mesh;
  props : gmap string MergeData
}.

(** The part of the host the two operations touch: [bpy.data.meshes],
    [bpy.data.objects], the objects linked to the active collection, and the
    console. *)
Record Host := mkHost {
  data_meshes : list Mesh;
  data_objects : list Object;
  collection_objects : list Object;
  stdout : list string
}.

Definition MERGE_TAG : string := "_smart_merge_topo_data"%string.

(** ** Exceptions and the host monad *)

(** The exceptions that can leave the code: a list index out of range, a
    missing dictionary key, and the error the spatial index raises when it
    refuses a query. *)
Inductive PyExc := IndexError | KeyError | RuntimeError.

Inductive res (A : Type) :=
  | Ok (a : A)
  | Raise (e : PyExc).
Arguments Ok {A} a.
Arguments Raise {A} e.

(** A computation on the host: its result or exception, and the host as the
    computation left it (what was created or printed before an exception
    stays). *)
Definition M (A : Type) : Type := Host → res A * Host.

Global Instance res_ret : MRet res := λ A a, Ok a.
Global Instance res_bind : MBind res := λ A B k r,
  match r with Ok a => k a | Raise e => Raise e end.

Global Instance M_ret : MRet M := λ A a h, (Ok a, h).
Global Instance M_bind : MBind M := λ A B k m h,
  match m h with
  | (Ok a, h') => k a h'
  | (Raise e, h') => (Raise e, h')
  end.

(** A computation that cannot touch the host. *)
Definition m_lift {A} (r : res A) : M A := λ h, (r, h).

(** [for x in l: s = f s x], stopping at the first exception. *)
Fixpoint for_res {A S} (f : S → A → res S) (s : S) (l : list A) : res S :=
  match l with
  | [] => Ok s
  | x :: l' => s' ← f s x; for_res f s' l'
  end.

(** The same loop for a body that acts on the host. *)
Fixpoint for_M {A S} (f : S → A → M S) (s : S) (l : list A) : M S :=
  match l with
  | [] => mret s
  | x :: l' => s' ← f s x; for_M f s' l'
  end.

(** [print(line)] *)
Definition print (line : string) : M unit :=
  λ h, (Ok tt, mkHost (data_meshes h) (data_objects h) (collection_objects h)
                      (stdout h ++ [line])).

(** The name the host gives a new data block. [bpy.data.meshes.new] and
    [bpy.data.objects.new] take a requested name, and the block they return
    carries a name that no other block of its kind has: the request itself,
    or the request shortened or given a numeric suffix such as [.001], as
    the host sees fit. Only what every host guarantees is fixed here: the
    name depends on the names in use and on the request, and it is not in
    use. *)
Class HostNames := {
  assign_name : list string → string → string;
  assign_name_fresh : ∀ taken name, assign_name taken name ∉ taken
}.

(** [bpy.data.meshes.new(name)] followed by [from_pydata(verts, [], faces)]. *)
Definition meshes_new `{HN : HostNames} (name : string) (verts : list Co)
    (faces : list (list nat)) : M Mesh :=
  λ h, let me := mkMesh (assign_name (mesh_name <$> data_meshes h) name)
                        verts faces in
       (Ok me, mkHost (data_meshes h ++ [me]) (data_objects h)
                      (collection_objects h) (stdout h)).

(** [bpy.data.objects.new(name, mesh)]. *)
Definition objects_new `{HN : HostNames} (name : string) (me : Mesh) : M Object :=
  λ h, let ob := mkObject (assign_name (obj_name <$> data_objects h) name) me ∅ in
       (Ok ob, mkHost (data_meshes h) (data_objects h ++ [ob])
                      (collection_objects h) (stdout h)).

(** [bpy.context.collection.objects.link(ob)]. *)
Definition collection_link (ob : Object) : M unit :=
  λ h, (Ok tt, mkHost (data_meshes h) (data_objects h)
                      (collection_objects h ++ [ob]) (stdout h)).

(** ** Python primitives *)

(** [str(i)] for a vertex id. *)
Definition str (i : nat) : string := pretty i.

(** [l[z]] for a Python list and integer: negative indices count from the
    end, anything else out of range raises [IndexError]. *)
Definition py_index {A} (l : list A) (z : Z) : res A :=
  let n := Z.of_nat (length l) in
  let k := if z <? 0 then z + n else z in
  if (0 <=? k) && (k <? n)
  then match l !! Z.to_nat k with Some a => Ok a | None => Raise IndexError end
  else Raise IndexError.

(** [list(set(...))]: some duplicate-free enumeration of the elements; which
    one is left to the Python implementation. *)
Class PySetOrder := {
  list_of_set : list nat → list nat;
  list_of_set_NoDup : ∀ l, NoDup (list_of_set l);
  list_of_set_elem : ∀ l x, x ∈ list_of_set l ↔ x ∈ l
}.

(** ** Spatial index *)

(** Squared Euclidean distance. *)
Definition dist_sq (p q : Co) : Z :=
  let '(x1, y1, z1) := p in
  let '(x2, y2, z2) := q in
  (x1 - x2) * (x1 - x2) + (y1 - y2) * (y1 - y2) + (z1 - z2) * (z1 - z2).

(** Modelled from the spec: the spatial index provider ([mathutils.kdtree])
    is outside the repository. Its radius query returns every inserted point
    in the closed ball of the given radius around the query point. The tree is
    the list of inserted [(co, index)] pairs; the distance component of each
    result, which the caller discards, is left out. *)
Definition in_range (co p : Co) (radius : Z) : bool :=
  dist_sq co p <=? radius * radius.

Definition ball (tree : list (Co * nat)) (co : Co) (radius : Z)
  : list (Co * nat) :=
  filter (λ e, in_range co e.1 radius = true) tree.

(** [tree.find_range(co, radius)]. The provider refuses a negative radius:
    the call raises [RuntimeError] and returns nothing. *)
Definition find_range (tree : list (Co * nat)) (co : Co) (radius : Z)
  : res (list (Co * nat)) :=
  if radius <? 0 then Raise RuntimeError else Ok (ball tree co radius).

(** [for i, v in enumerate(bm.verts)] *)
Definition enumerate {A} (l : list A) : list (nat * A) :=
  imap (λ i x, (i, x)) l.

(** [tree.insert(v.co, i)] for every vertex. *)
Definition build_tree (verts : list Co) : list (Co * nat) :=
  (λ iv : nat * Co, (iv.2, iv.1)) <$> enumerate verts.

(** ** smart_merge_topo: clustering (lines 46-55) *)

Section merge.
Context `{PySetOrder} `{HN : HostNames}.

(** One turn of [for i, v in enumerate(bm.verts)]: a visited id is skipped;
    otherwise the ids in range of [v.co] become a group, all of them are
    marked visited, and the group is appended. An exception of the query
    ends the loop. *)
Definition cluster_step (tree : list (Co * nat)) (threshold : Z)
    (st : gset nat * list (list nat)) (iv : nat * Co)
  : res (gset nat * list (list nat)) :=
  let '(visited, groups) := st in
  let '(i, co) := iv in
  if decide (i ∈ visited) then Ok st
  else
    close ← find_range tree co threshold;
    let indices := list_of_set (close.*2) in
    Ok (foldl (λ vis idx, vis ∪ {[idx]}) visited indices, groups ++ [indices]).

(** The groups the loop leaves. *)
Definition cluster (verts : list Co) (threshold : Z) : res (list (list nat)) :=
  st ← for_res (cluster_step (build_tree verts) threshold) (∅, [])
               (enumerate verts);
  Ok st.2.

(** ** Merge map (lines 57-61) *)

(** [for idx in group: merge_map[str(idx)] = keeper] *)
Definition assign_keeper (keeper : nat) (merge_map : gmap string nat)
    (group : list nat) : gmap string nat :=
  foldl (λ mm idx, <[str idx := keeper]> mm) merge_map group.

(** [keeper = group[0]] raises [IndexError] on an empty group. *)
Definition merge_group (merge_map : gmap string nat) (group : list nat)
  : res (gmap string nat) :=
  match group with
  | [] => Raise IndexError
  | keeper :: _ => Ok (assign_keeper keeper merge_map group)
  end.

(** [for group in groups: ...], from the empty dictionary. *)
Definition build_merge_map (groups : list (list nat)) : res (gmap string nat) :=
  for_res merge_group ∅ groups.

(** ** Index table and rebuilt vertices (lines 64-77) *)

(** One turn of the first loop over [range(len(original_coords))]: a keeper
    gets the next compact id and its coordinate is appended. *)
Definition keep_step (coords : list Co) (keeper_set : gset nat)
    (st : list Co * gmap nat nat) (i : nat) : res (list Co * gmap nat nat) :=
  let '(new_verts, idx_map) := st in
  if decide (i ∈ keeper_set) then
    match coords !! i with
    | Some c => Ok (new_verts ++ [c], <[i := length new_verts]> idx_map)
    | None => Raise IndexError
    end
  else Ok st.

Definition build_keepers (coords : list Co) (keeper_set : gset nat)
  : res (list Co * gmap nat nat) :=
  for_res (keep_step coords keeper_set) ([], ∅) (seq 0 (length coords)).

(** The line of the defensive branch. *)
Definition missing_keeper_warning (i merge_to : nat) : string :=
  ("Warning: Missing keeper for vertex " +:+ str i +:+ " -> " +:+ str merge_to)%string.

(** One turn of the second loop: [merge_to = int(merge_map[str(i)])]; if
    [merge_to] has no entry in [idx_map] the warning is printed and the id is
    skipped, otherwise [idx_map[i] = idx_map[merge_to]] on the table as it
    is at that moment. *)
Definition remap_step (merge_map : gmap string nat)
    (idx_map : gmap nat nat) (i : nat) : M (gmap nat nat) :=
  match merge_map !! str i with
  | None => m_lift (Raise KeyError)
  | Some merge_to =>
      match idx_map !! merge_to with
      | None => _ ← print (missing_keeper_warning i merge_to); mret idx_map
      | Some c => mret (<[i := c]> idx_map)
      end
  end.

Definition remap_all (merge_map : gmap string nat) (n : nat)
    (idx_map : gmap nat nat) : M (gmap nat nat) :=
  for_M (remap_step merge_map) idx_map (seq 0 n).

(** ** Face rewrite (lines 80-85) *)

(** [[idx_map[i] for i in face]] *)
Definition rewrite_face (idx_map : gmap nat nat) (face : list nat)
  : res (list nat) :=
  for_res (λ acc i, match idx_map !! i with
                    | Some c => Ok (acc ++ [c])
                    | None => Raise KeyError
                    end) [] face.

(** [len(set(new_face)) == len(new_face)] *)
Definition all_distinct (new_face : list nat) : bool :=
  bool_decide (size (list_to_set new_face : gset nat) = length new_face).

(** One turn of [for face in original_faces]. *)
Definition face_step (idx_map : gmap nat nat) (new_faces : list (list nat))
    (face : list nat) : res (list (list nat)) :=
  new_face ← rewrite_face idx_map face;
  if all_distinct new_face then Ok (new_faces ++ [new_face])
  else Ok new_faces.

Definition rewrite_faces (idx_map : gmap nat nat) (faces : list (list nat))
  : res (list (list nat)) :=
  for_res (face_step idx_map) [] faces.

(** ** Record store (lines 17-27) *)

(** [obj[MERGE_TAG] = json.dumps({...})]: the record as [json.loads] reads
    it back, the integer keys of [idx_map] rendered by [str]. *)
Definition store_merge_data (obj : Object) (idx_map : gmap nat nat)
    (coords : list Co) (faces : list (list nat)) : Object :=
  mkObject (obj_name obj) (data obj)
    (<[MERGE_TAG := mkMergeData (kmap str (Z.of_nat <$> idx_map)) coords faces]>
       (props obj)).

(** [None] when [MERGE_TAG not in obj]. *)
Definition load_merge_data (obj : Object) : option MergeData :=
  props obj !! MERGE_TAG.

(** ** smart_merge_topo (lines 29-95) *)

(** The object is returned as the call leaves it: [obj.data] replaced and the
    record stored. Nothing about the object changes before the last fallible
    step. *)
Definition smart_merge_topo (obj : Object) (threshold : Z) : M Object :=
  let me := data obj in
  let original_coords := vertices me in
  let original_faces := polygons me in
  groups ← m_lift (cluster original_coords threshold);
  merge_map ← m_lift (build_merge_map groups);
  let keeper_set : gset nat := map_img merge_map in
  '(new_verts, idx_map0) ← m_lift (build_keepers original_coords keeper_set);
  idx_map ← remap_all merge_map (length original_coords) idx_map0;
  new_faces ← m_lift (rewrite_faces idx_map original_faces);
  new_mesh ← meshes_new (obj_name obj +:+ "_merged")%string new_verts new_faces;
  let obj' := mkObject (obj_name obj) new_mesh (props obj) in
  let obj'' := store_merge_data obj' idx_map original_coords original_faces in
  _ ← print "Smart merge successful."%string;
  mret obj''.

End merge.

Arguments assign_keeper : simpl never.

(** ** smart_restore_topo (lines 97-121) *)

(** One turn of the loop over [range(len(original_coords))]:
    [restored_coords.append(current_positions[mapping[str(i)]])]. *)
Definition restore_step (mapping : gmap string Z) (current_positions : list Co)
    (restored_coords : list Co) (i : nat) : res (list Co) :=
  match mapping !! str i with
  | None => Raise KeyError
  | Some mapped =>
      p ← py_index current_positions mapped;
      Ok (restored_coords ++ [p])
  end.

(** The source object is only read. *)
Definition smart_restore_topo `{HN : HostNames} (obj : Object) : M unit :=
  match load_merge_data obj with
  | None => print "No smart merge data found."%string
  | Some d =>
      let current_positions := vertices (data obj) in
      restored_coords ←
        m_lift (for_res (restore_step (mapping d) current_positions) []
                        (seq 0 (length (original_coords d))));
      mesh ← meshes_new (obj_name obj +:+ "_restored")%string restored_coords
                            (original_faces d);
      new_obj ← objects_new (obj_name obj +:+ "_restored")%string mesh;
      _ ← collection_link new_obj;
      print "Smart restore complete."%string
  end.

(** ** A concrete set order: ascending ids *)

(** The order small non-negative integers come out of a CPython set in. *)
Definition ascending (l : list nat) : list nat :=
  merge_sort Nat.le (remove_dups l).

#[refine] Instance ascending_order : PySetOrder := {| list_of_set := ascending |}.
Proof.
  - intros l. unfold ascending. rewrite merge_sort_Permutation.
    apply NoDup_remove_dups.
  - intros l x. unfold ascending. rewrite merge_sort_Permutation.
    apply elem_of_remove_dups.
Defined.

(** ** A concrete naming: numeric suffixes *)

(** A three-digit suffix number. *)
Definition pad3 (k : nat) : string :=
  if decide (k < 10)%nat then ("00" +:+ pretty k)%string
  else if decide (k < 100)%nat then ("0" +:+ pretty k)%string
  else pretty k.

(** The first of [name.k], [name.(k+1)], ... that is not in use, looking at
    [fuel] candidates; past them, any name not in use. *)
Fixpoint free_suffix (taken : list string) (name : string) (k fuel : nat)
  : string :=
  match fuel with
  | O => fresh taken
  | S fuel' =>
      let c := (name +:+ "." +:+ pad3 k)%string in
      if decide (c ∈ taken) then free_suffix taken name (S k) fuel' else c
  end.

(** The request when it is free, otherwise the request with the first free
    suffix [.001], [.002], ... *)
Definition suffix_name (taken : list string) (name : string) : string :=
  if decide (name ∈ taken) then free_suffix taken name 1 999 else name.

Definition suffix_names : HostNames.
Proof.
  refine {| assign_name := suffix_name |}.
  intros taken name. unfold suffix_name.
  destruct (decide (name ∈ taken)); [|done].
  assert (∀ fuel k, free_suffix taken name k fuel ∉ taken) as Hfree; [|apply Hfree].
  intros fuel. induction fuel as [|fuel IH]; intros k; simpl.
  - apply infinite_is_fresh.
  - destruct (decide _); [apply IH|done].
Defined.

(** * Vocabulary of the properties *)

Section vocabulary.
Context `{PySetOrder}.

(** The group a seed at [co] produces when its query is answered: the ids
    in its ball, listed once. *)
Definition ball_group (verts : list Co) (threshold : Z) (co : Co) : list nat :=
  list_of_set ((ball (build_tree verts) co threshold).*2).

(** One turn of the clustering loop when the query is answered. *)
Definition group_step (verts : list Co) (threshold : Z)
    (st : gset nat * list (list nat)) (iv : nat * Co)
  : gset nat * list (list nat) :=
  let '(visited, groups) := st in
  let '(i, co) := iv in
  if decide (i ∈ visited) then st
  else
    let indices := ball_group verts threshold co in
    (foldl (λ vis idx, vis ∪ {[idx]}) visited indices, groups ++ [indices]).

(** The loop state [(visited, groups)] after the seeds [ivs], every query
    answered. *)
Definition cluster_state (verts : list Co) (threshold : Z)
    (ivs : list (nat * Co)) : gset nat * list (list nat) :=
  foldl (group_step verts threshold) (∅, []) ivs.

(** The groups the loop leaves when every query is answered: what [cluster]
    returns whenever it returns. *)
Definition groups_of (verts : list Co) (threshold : Z) : list (list nat) :=
  (cluster_state verts threshold (enumerate verts)).2.

(** Invariant of the clustering loop once the ids below [k] are done. *)
Record cluster_inv (verts : list Co) (threshold : Z) (k : nat)
    (st : gset nat * list (list nat)) : Prop := {
  inv_visited : ∀ i, i ∈ st.1 ↔ ∃ g, g ∈ st.2 ∧ i ∈ g;
  inv_groups : ∀ g, g ∈ st.2 →
    ∃ s co, (s < k)%nat ∧ verts !! s = Some co ∧ g = ball_group verts threshold co;
  inv_covered : 0 ≤ threshold → ∀ i, (i < k)%nat → i ∈ st.1;
  inv_seeds : ∀ gs1 g gs2, st.2 = gs1 ++ g :: gs2 →
    ∃ s co, verts !! s = Some co ∧ g = ball_group verts threshold co ∧
            ∀ g', g' ∈ gs2 → s ∉ g'
}.

End vocabulary.

(** [g] is the last group of [groups] that lists [i]. *)
Definition last_group_with (i : nat) (groups : list (list nat)) (g : list nat)
  : Prop :=
  ∃ gs1 gs2, groups = gs1 ++ g :: gs2 ∧ i ∈ g ∧ ∀ g', g' ∈ gs2 → i ∉ g'.

(** Number of keepers below [k]: the compact id the ascending enumeration
    gives to a keeper [k]. *)
Definition rank (ks : gset nat) (k : nat) : nat :=
  length (filter (λ j, j ∈ ks) (seq 0 k)).

(** Invariant of the second loop over ids once the ids below [n] are done;
    [im0] is the table the keeper enumeration left. *)
Record remap_inv (merge_map : gmap string nat) (im0 : gmap nat nat) (n : nat)
    (im : gmap nat nat) : Prop := {
  remap_later : ∀ j, (n ≤ j)%nat → im !! j = im0 !! j;
  remap_compact : ∀ j c, im !! j = Some c → ∃ m, im0 !! m = Some c;
  remap_done : ∀ j, (j < n)%nat → is_Some (im !! j);
  remap_own : ∀ j, (j < n)%nat → merge_map !! str j = Some j → im !! j = im0 !! j;
  remap_via : ∀ j m, (j < n)%nat → merge_map !! str j = Some m →
                     merge_map !! str m = Some m → im !! j = im0 !! m
}.

(** [new_face] is [face] with every id replaced by its [idx_map] entry. *)
Definition rewrites_to (idx_map : gmap nat nat) (face new_face : list nat) : Prop :=
  Forall2 (λ i c, idx_map !! i = Some c) face new_face.

(** A snapshot whose faces only name existing vertices. *)
Definition faces_valid (n : nat) (faces : list (list nat)) : Prop :=
  ∀ f i, f ∈ faces → i ∈ f → (i < n)%nat.

(** What a completed merge leaves: the new mesh, the object pointing to it
    with the record stored, and the host with the mesh added and the success
    line printed. *)
Definition merged_mesh `{HN : HostNames} (obj : Object) (nv : list Co)
    (nf : list (list nat)) (h : Host) : Mesh :=
  mkMesh (assign_name (mesh_name <$> data_meshes h) (obj_name obj +:+ "_merged"))
         nv nf.

Definition merged_object `{HN : HostNames} (obj : Object) (nv : list Co)
    (nf : list (list nat)) (im : gmap nat nat) (h : Host) : Object :=
  store_merge_data (mkObject (obj_name obj) (merged_mesh obj nv nf h) (props obj))
    im (vertices (data obj)) (polygons (data obj)).

Definition merged_host `{HN : HostNames} (obj : Object) (nv : list Co)
    (nf : list (list nat)) (h : Host) : Host :=
  mkHost (data_meshes h ++ [merged_mesh obj nv nf h]) (data_objects h)
         (collection_objects h) (stdout h ++ ["Smart merge successful."%string]).

(** The stored entry of id [i] can be read and indexes the current vertices. *)
Definition entry_ok (mapping : gmap string Z) (current : list Co) (i : nat) : Prop :=
  ∃ c p, mapping !! str i = Some c ∧ py_index current c = Ok p.

(** What a completed restore leaves: a new mesh and a new object, added to
    the host and linked; the source object is not touched. *)
Definition restored_mesh `{HN : HostNames} (obj : Object) (rc : list Co)
    (d : MergeData) (h : Host) : Mesh :=
  mkMesh (assign_name (mesh_name <$> data_meshes h) (obj_name obj +:+ "_restored"))
         rc (original_faces d).

Definition restored_object `{HN : HostNames} (obj : Object) (rc : list Co)
    (d : MergeData) (h : Host) : Object :=
  mkObject (assign_name (obj_name <$> data_objects h) (obj_name obj +:+ "_restored"))
           (restored_mesh obj rc d h) ∅.

Definition restored_host `{HN : HostNames} (obj : Object) (rc : list Co)
    (d : MergeData) (h : Host) : Host :=
  mkHost (data_meshes h ++ [restored_mesh obj rc d h])
         (data_objects h ++ [restored_object obj rc d h])
         (collection_objects h ++ [restored_object obj rc d h])
         (stdout h ++ ["Smart restore complete."%string]).

(** Every id below [n] is listed by exactly one group (by position). *)
Definition partition_of (n : nat) (groups : list (list nat)) : Prop :=
  ∀ i, (i < n)%nat →
    ∃ k, (∃ g, groups !! k = Some g ∧ i ∈ g) ∧
         ∀ k', (∃ g, groups !! k' = Some g ∧ i ∈ g) → k' = k.

(** The merge map sends every member of every group to the least id of that
    group. *)
Definition keeps_minimum (groups : list (list nat)) (mm : gmap string nat) : Prop :=
  ∀ g i, g ∈ groups → i ∈ g →
    ∃ k, mm !! str i = Some k ∧ k ∈ g ∧ ∀ j, j ∈ g → (k ≤ j)%nat.

(** Every group has exactly one member. *)
Definition all_singletons (groups : list (list nat)) : Prop :=
  ∀ g, g ∈ groups → ∃ s, g = [s].

(** * Sample inputs *)

Definition host0 : Host := mkHost [] [] [] [].

(** Three collinear vertices, 6 units apart. *)
Definition line3 : Object :=
  mkObject "Line" (mkMesh "Line" [(0,0,0); (6,0,0); (12,0,0)] [[0;1;2]]%nat) ∅.

(** Two near pairs and one quad, in units of 0.00001. *)
Definition quad4 : Object :=
  mkObject "Quad"
    (mkMesh "Quad" [(0,0,0); (0,0,5); (100000,0,0); (100000,0,0)] [[0;1;2;3]]%nat) ∅.

(** Two vertices at the same place. *)
Definition twin2 : Object :=
  mkObject "Twin" (mkMesh "Twin" [(0,0,0); (0,0,0)] []) ∅.

(** A one-vertex object whose stored mapping has an entry more than it has
    stored coordinates. *)
Definition long_data : MergeData :=
  mkMergeData (<[str 0 := 0]> (<[str 1 := 0]> ∅)) [(1,0,0)] [].

Definition long_record : Object :=
  mkObject "Long" (mkMesh "Long_merged" [(7,0,0)] []) {[ MERGE_TAG := long_data ]}.

(** A one-vertex object whose stored mapping lacks the entry of id 1. *)
Definition short_data : MergeData :=
  mkMergeData (<[str 0 := 0]> ∅) [(1,0,0); (2,0,0)] [[0;1]]%nat.

Definition short_record : Object :=
  mkObject "Short" (mkMesh "Short_merged" [(7,0,0)] []) {[ MERGE_TAG := short_data ]}.

(** Six vertices whose balls of radius 10 overlap in a chain. *)
Definition overlap6 : Object :=
  mkObject "Chain"
    (mkMesh "Chain"
       [(35,0,0); (10,10,0); (29,0,0); (10,0,0); (0,0,0); (19,0,0)]
       [[3;4;5]; [0;1;4]]%nat) ∅.

(** * Operators and panel (lines 123-163) *)

(** The status set an operator returns. *)
Inductive OperatorResult := FINISHED | CANCELLED.

(** What [context.active_object] holds: an object and its [type]. The mesh
    of a non-mesh object is never read. *)
Record ActiveObject := mkActive {
  ob_type : string;
  ob_object : Object
}.

Section operators.
Context `{PySetOrder} `{HN : HostNames}.

(** [OBJECT_OT_SmartMergeTopo.execute]: the status, and the active object as
    the call leaves it. An exception of the merge is not caught. *)
Definition SmartMergeTopo_execute (threshold : Z) (active : option ActiveObject)
  : M (OperatorResult * option ActiveObject) :=
  match active with
  | Some a =>
      if bool_decide (ob_type a = "MESH"%string) then
        obj' ← smart_merge_topo (ob_object a) threshold;
        mret (FINISHED, Some (mkActive (ob_type a) obj'))
      else mret (CANCELLED, active)
  | None => mret (CANCELLED, active)
  end.

End operators.

(** [OBJECT_OT_SmartRestoreTopo.execute]. *)
Definition SmartRestoreTopo_execute `{HN : HostNames}
    (active : option ActiveObject) : M OperatorResult :=
  match active with
  | Some a =>
      if bool_decide (ob_type a = "MESH"%string) then
        _ ← smart_restore_topo (ob_object a);
        mret FINISHED
      else mret CANCELLED
  | None => mret CANCELLED
  end.

(** The [bl_idname] of the two operators. *)
Definition SmartMergeTopo_bl_idname : string := "object.smart_merge_topo".
Definition SmartRestoreTopo_bl_idname : string := "object.smart_restore_topo".

(** What [VIEW3D_PT_SmartMergeTopoPanel.draw] puts in the layout. *)
Inductive LayoutItem :=
  | layout_operator (idname : string)
  | layout_label (text : string).

Definition SmartMergeTopoPanel_draw (active : option ActiveObject)
  : list LayoutItem :=
  match active with
  | Some a =>
      if bool_decide (ob_type a = "MESH"%string) then
        [layout_operator "object.smart_merge_topo";
         layout_operator "object.smart_restore_topo"]
      else [layout_label "Select a mesh object."]
  | None => [layout_label "Select a mesh object."]
  end.

(** * Further vocabulary *)

(** No id is listed by two groups (groups taken by position). *)
Definition groups_disjoint (groups : list (list nat)) : Prop :=
  ∀ k1 k2 g1 g2 i,
    groups !! k1 = Some g1 → groups !! k2 = Some g2 →
    i ∈ g1 → i ∈ g2 → k1 = k2.

(** One step along the merge map: [b = merge_map[str(a)]]. *)
Definition merge_step (mm : gmap string nat) : relation nat :=
  λ a b, mm !! str a = Some b.

(** The keeper whose compact id the second loop leaves at id [i]. When the
    loop reaches [i] it copies the entry of [merge_to = merge_map[str(i)]];
    for [merge_to < i] that entry was rewritten earlier in the same loop, so
    the keeper is the one left at [merge_to]; otherwise the entry still is
    the one the enumeration gave to [merge_to]. *)
Fixpoint follow_merge_map (mm : gmap string nat) (fuel i : nat) : nat :=
  match fuel with
  | O => i
  | S fuel' =>
      match mm !! str i with
      | Some m => if decide (m < i)%nat then follow_merge_map mm fuel' m else m
      | None => i
      end
  end.

Definition stored_keeper (mm : gmap string nat) (i : nat) : nat :=
  follow_merge_map mm (S i) i.

(** [face] taken through the merge map and then through the index table of
    the keeper enumeration; [None] when an id has no entry. *)
Definition rewrite_via (mm : gmap string nat) (im0 : gmap nat nat)
    (face : list nat) : option (list nat) :=
  mapM (λ i, m ← mm !! str i; im0 !! m) face.

(** The stored table gives the keepers [ks] the compact ids
    [0 .. size ks - 1]: every keeper has one of them, every one of them is
    the id of a keeper, and no two keepers share one. *)
Definition compact_ids (ks : gset nat) (table : gmap string Z) : Prop :=
  (∀ k, k ∈ ks → ∃ c, table !! str k = Some (Z.of_nat c) ∧ (c < size ks)%nat) ∧
  (∀ c, (c < size ks)%nat → ∃ k, k ∈ ks ∧ table !! str k = Some (Z.of_nat c)) ∧
  (∀ k k', k ∈ ks → k' ∈ ks → table !! str k = table !! str k' → k = k').

(** The index Python reads for [l[c]] when it is in range. *)
Definition py_position (len c : Z) : nat :=
  Z.to_nat (if c <? 0 then c + len else c).

(** Further sample inputs. *)
Definition mesh_active (obj : Object) : ActiveObject := mkActive "MESH" obj.

(** A one-vertex object whose record names the vertex from the end. *)
Definition back_data : MergeData :=
  mkMergeData (<[str 0 := -1]> ∅) [(1,0,0)] [].

Definition back_record : Object :=
  mkObject "Back" (mkMesh "Back_merged" [(5,0,0); (7,0,0)] [])
    {[ MERGE_TAG := back_data ]}.

(** * Properties *)

(** ** Loops *)

Lemma for_res_app {A S} (f : S → A → res S) s l1 l2 :
  for_res f s (l1 ++ l2) = s' ← for_res f s l1; for_res f s' l2.
Proof.
  revert s. induction l1 as [|x l1 IH]; intros s; simpl; [done|].
  destruct (f s x) as [s'|e]; simpl; [apply IH|done].
Qed.

Lemma for_res_cons {A S} (f : S → A → res S) s x l :
  for_res f s (x :: l) = s' ← f s x; for_res f s' l.
Proof. done. Qed.

Lemma for_res_snoc {A S} (f : S → A → res S) s l x :
  for_res f s (l ++ [x]) = s' ← for_res f s l; f s' x.
Proof.
  rewrite for_res_app. destruct (for_res f s l) as [s'|e]; simpl; [|done].
  by destruct (f s' x).
Qed.

Lemma for_M_snoc {A S} (f : S → A → M S) s l x h :
  for_M f s (l ++ [x]) h =
  match for_M f s l h with
  | (Ok s', h') => f s' x h'
  | (Raise e, h') => (Raise e, h')
  end.
Proof.
  revert s h. induction l as [|y l IH]; intros s h; simpl.
  - unfold mbind, M_bind, mret, M_ret. by destruct (f s x h) as [[?|?] ?].
  - unfold mbind, M_bind. destruct (f s y h) as [[s'|e] h']; [apply IH|done].
Qed.

(** ** Python primitives *)

Lemma str_inj i j : str i = str j → i = j.
Proof. apply (inj pretty). Qed.

Lemma py_index_nat {A} (l : list A) (k : nat) (a : A) :
  l !! k = Some a → py_index l (Z.of_nat k) = Ok a.
Proof.
  intros Hk. pose proof (lookup_lt_Some _ _ _ Hk) as Hlt.
  unfold py_index.
  destruct (Z.ltb_spec (Z.of_nat k) 0) as [?|_]; [lia|].
  destruct (Z.leb_spec 0 (Z.of_nat k)) as [_|?]; [|lia].
  destruct (Z.ltb_spec (Z.of_nat k) (Z.of_nat (length l))) as [_|?]; [|lia].
  simpl. by rewrite Nat2Z.id, Hk.
Qed.

Lemma py_index_in_range {A} (l : list A) (c : Z) :
  0 ≤ c < Z.of_nat (length l) →
  ∃ a, l !! Z.to_nat c = Some a ∧ py_index l c = Ok a.
Proof.
  intros Hc. destruct (lookup_lt_is_Some_2 l (Z.to_nat c)) as [a Ha]; [lia|].
  exists a. split; [done|]. rewrite <-(Z2Nat.id c) by lia.
  by apply py_index_nat.
Qed.

Lemma all_distinct_size_le (l : list nat) :
  (size (list_to_set l : gset nat) ≤ length l)%nat.
Proof.
  induction l as [|x l IH].
  { rewrite list_to_set_nil, size_empty. simpl. lia. }
  rewrite list_to_set_cons. simpl length.
  rewrite size_union_alt.
  rewrite size_singleton.
  assert (size ((list_to_set l : gset nat) ∖ {[x]}) ≤ size (list_to_set l : gset nat))%nat.
  { apply subseteq_size. set_solver. }
  lia.
Qed.

Lemma all_distinct_NoDup (l : list nat) : all_distinct l = true ↔ NoDup l.
Proof.
  unfold all_distinct. rewrite bool_decide_eq_true. split.
  - induction l as [|x l IH]; intros Hsz; [constructor|].
    simpl in Hsz. destruct (decide (x ∈ l)) as [Hin|Hnin].
    + exfalso. pose proof (all_distinct_size_le l).
      assert ({[x]} ∪ (list_to_set l : gset nat) = list_to_set l) as Heq
        by set_solver.
      rewrite Heq in Hsz. lia.
    + constructor; [done|]. apply IH.
      rewrite size_union, size_singleton in Hsz by set_solver. lia.
  - apply size_list_to_set.
Qed.

(** ** Enumeration, tree and radius query *)

Lemma elem_of_enumerate {A} (l : list A) i x :
  (i, x) ∈ enumerate l ↔ l !! i = Some x.
Proof.
  unfold enumerate. rewrite list_elem_of_lookup. split.
  - intros [j Hj]. rewrite list_lookup_imap in Hj.
    destruct (l !! j) eqn:E; simplify_eq/=. done.
  - intros Hi. exists i. by rewrite list_lookup_imap, Hi.
Qed.

Lemma enumerate_snoc {A} (l : list A) x :
  enumerate (l ++ [x]) = enumerate l ++ [(length l, x)].
Proof.
  unfold enumerate. rewrite imap_app. simpl. by rewrite Nat.add_0_r.
Qed.

Lemma elem_of_build_tree verts co i :
  (co, i) ∈ build_tree verts ↔ verts !! i = Some co.
Proof.
  unfold build_tree. rewrite list_elem_of_fmap. split.
  - intros [[j p] [? Hin]]; simplify_eq/=. by apply elem_of_enumerate.
  - intros Hi. exists (i, co). split; [done|]. by apply elem_of_enumerate.
Qed.

Lemma elem_of_ball verts co radius j :
  j ∈ (ball (build_tree verts) co radius).*2 ↔
  ∃ p, verts !! j = Some p ∧ in_range co p radius = true.
Proof.
  unfold ball. rewrite list_elem_of_fmap. split.
  - intros [[p i] [? Hin]]; simplify_eq/=.
    apply list_elem_of_filter in Hin as [Hr Hin]. simpl in Hr.
    exists p. split; [|done]. by apply elem_of_build_tree.
  - intros (p & Hj & Hr). exists (p, j). split; [done|].
    apply list_elem_of_filter. split; [done|]. by apply elem_of_build_tree.
Qed.

Lemma dist_sq_refl p : dist_sq p p = 0.
Proof. destruct p as [[x y] z]. unfold dist_sq. lia. Qed.

Lemma in_range_refl p radius : in_range p p radius = true.
Proof. unfold in_range. rewrite dist_sq_refl. apply Z.leb_le. nia. Qed.

Lemma in_range_sym p q radius : in_range p q radius = in_range q p radius.
Proof.
  unfold in_range. f_equal.
  destruct p as [[x1 y1] z1], q as [[x2 y2] z2]. unfold dist_sq. lia.
Qed.

Lemma in_range_zero p q : in_range p q 0 = true ↔ p = q.
Proof.
  unfold in_range. destruct p as [[x1 y1] z1], q as [[x2 y2] z2]. simpl.
  rewrite Z.leb_le. split.
  - intros Hd.
    pose proof (Z.square_nonneg (x1 - x2)). pose proof (Z.square_nonneg (y1 - y2)).
    pose proof (Z.square_nonneg (z1 - z2)).
    assert (x1 - x2 = 0) by nia. assert (y1 - y2 = 0) by nia.
    assert (z1 - z2 = 0) by nia.
    f_equal; [f_equal|]; lia.
  - intros [= -> -> ->]. lia.
Qed.

(** ** Clustering *)

Section merge_properties.
Context `{PySetOrder}.

Lemma elem_of_ball_group verts threshold co j :
  j ∈ ball_group verts threshold co ↔
  ∃ p, verts !! j = Some p ∧ in_range co p threshold = true.
Proof. unfold ball_group. by rewrite list_of_set_elem, elem_of_ball. Qed.

Lemma visited_add_all (visited : gset nat) (indices : list nat) :
  foldl (λ vis idx, vis ∪ {[idx]}) visited indices = visited ∪ list_to_set indices.
Proof.
  revert visited. induction indices as [|x l IH]; intros visited; simpl.
  - set_solver.
  - rewrite IH. set_solver.
Qed.

Lemma cluster_prefix_inv verts threshold pre suf :
  verts = pre ++ suf →
  cluster_inv verts threshold (length pre)
    (cluster_state verts threshold (enumerate pre)).
Proof.
  revert suf. induction pre as [|co pre IH] using rev_ind; intros suf Hv.
  - split; simpl.
    + intros i. split; [set_solver|]. intros (g & Hg & _). by apply elem_of_nil in Hg.
    + intros g Hg. by apply elem_of_nil in Hg.
    + intros _ i Hi. lia.
    + intros gs1 g gs2 Heq. by destruct gs1.
  - specialize (IH ([co] ++ suf)). rewrite <-app_assoc in Hv.
    specialize (IH Hv). unfold cluster_state in *.
    rewrite enumerate_snoc, foldl_app. simpl.
    destruct (foldl _ _ (enumerate pre)) as [visited groups] eqn:Est.
    destruct IH as [Hvis Hgr Hcov Hseeds]. simpl in *.
    assert (verts !! length pre = Some co) as Hco.
    { rewrite Hv. by rewrite list_lookup_middle. }
    rewrite length_app. simpl. replace (length pre + 1)%nat with (S (length pre)) by lia.
    unfold group_step. destruct (decide (length pre ∈ visited)) as [Hin|Hnin].
    + split; simpl.
      * done.
      * intros g Hg. destruct (Hgr g Hg) as (s & c & ? & ? & ?).
        exists s, c. split; [lia|done].
      * intros Hr i Hi. destruct (decide (i = length pre)) as [->|]; [done|].
        apply Hcov; [done|lia].
      * done.
    + fold (ball_group verts threshold co). rewrite visited_add_all.
      split; simpl.
      * intros i. rewrite elem_of_union, elem_of_list_to_set, Hvis. split.
        -- intros [(g & Hg & Hi)|Hi].
           ++ exists g. split; [|done]. apply elem_of_app. by left.
           ++ exists (ball_group verts threshold co). split; [|done].
              apply elem_of_app. right. by apply list_elem_of_singleton.
        -- intros (g & Hg & Hi). apply elem_of_app in Hg as [Hg|Hg].
           ++ left. by exists g.
           ++ apply list_elem_of_singleton in Hg as ->. by right.
      * intros g Hg. apply elem_of_app in Hg as [Hg|Hg].
        -- destruct (Hgr g Hg) as (s & c & ? & ? & ?).
           exists s, c. split; [lia|done].
        -- apply list_elem_of_singleton in Hg as ->.
           exists (length pre), co. split; [lia|done].
      * intros Hr i Hi. apply elem_of_union.
        destruct (decide (i = length pre)) as [->|].
        -- right. apply elem_of_list_to_set, elem_of_ball_group.
           exists co. split; [done|]. by apply in_range_refl.
        -- left. apply Hcov; [done|lia].
      * intros gs1 g gs2 Heq.
        destruct gs2 as [|g2 gs2 _] using rev_ind.
        -- apply (app_inj_tail groups gs1) in Heq as [_ <-].
           exists (length pre), co. split_and!; [done..|].
           intros g' Hg'. by apply elem_of_nil in Hg'.
        -- change (groups ++ [ball_group verts threshold co]
                   = gs1 ++ (g :: gs2) ++ [g2]) in Heq.
           rewrite app_assoc in Heq. apply app_inj_tail in Heq as [Heq <-].
           destruct (Hseeds gs1 g gs2 Heq) as (s & cs & Hs & -> & Hlater).
           exists s, cs. split_and!; [done..|].
           intros g' [Hg'| ->%list_elem_of_singleton]%elem_of_app; [by apply Hlater|].
           intros (p & Hp & Hrange)%elem_of_ball_group. simplify_eq.
           apply Hnin, Hvis. eexists.
           split; [apply elem_of_app; right; by apply elem_of_cons; left|].
           apply elem_of_ball_group. exists co. split; [done|].
           by rewrite in_range_sym.
Qed.

Lemma cluster_inv_final verts threshold :
  cluster_inv verts threshold (length verts)
    (cluster_state verts threshold (enumerate verts)).
Proof. apply (cluster_prefix_inv verts threshold verts []). by rewrite app_nil_r. Qed.

Lemma cluster_group_ball verts threshold g :
  g ∈ groups_of verts threshold →
  ∃ s co, verts !! s = Some co ∧ g = ball_group verts threshold co.
Proof.
  intros Hg. destruct (cluster_inv_final verts threshold) as [_ Hgr _ _].
  destruct (Hgr g Hg) as (s & co & _ & ? & ?). eauto.
Qed.

Lemma cluster_group_NoDup verts threshold g :
  g ∈ groups_of verts threshold → NoDup g.
Proof.
  intros (s & co & _ & ->)%cluster_group_ball. apply list_of_set_NoDup.
Qed.

Lemma cluster_group_valid verts threshold g j :
  g ∈ groups_of verts threshold → j ∈ g → (j < length verts)%nat.
Proof.
  intros (s & co & _ & ->)%cluster_group_ball (p & Hp & _)%elem_of_ball_group.
  by eapply lookup_lt_Some.
Qed.

Lemma cluster_covers verts threshold i :
  0 ≤ threshold → (i < length verts)%nat →
  ∃ g, g ∈ groups_of verts threshold ∧ i ∈ g.
Proof.
  intros Hr Hi. destruct (cluster_inv_final verts threshold) as [Hvis _ Hcov _].
  apply Hvis. by apply Hcov.
Qed.

Lemma cluster_group_nonempty verts threshold g :
  0 ≤ threshold → g ∈ groups_of verts threshold → g ≠ [].
Proof.
  intros Hr (s & co & Hs & ->)%cluster_group_ball Hnil.
  assert (s ∈ ball_group verts threshold co) as Hin.
  { apply elem_of_ball_group. exists co. split; [done|]. by apply in_range_refl. }
  rewrite Hnil in Hin. by apply elem_of_nil in Hin.
Qed.

(** *** The loop and its queries *)

Lemma cluster_step_Ok verts threshold st iv st' :
  cluster_step (build_tree verts) threshold st iv = Ok st' →
  st' = group_step verts threshold st iv.
Proof.
  destruct st as [visited groups], iv as [i co].
  unfold cluster_step, group_step, find_range.
  destruct (decide (i ∈ visited)); [by intros [= <-]|].
  destruct (threshold <? 0); [done|]. simpl. by intros [= <-].
Qed.

Lemma cluster_step_total verts threshold st iv :
  0 ≤ threshold →
  cluster_step (build_tree verts) threshold st iv
    = Ok (group_step verts threshold st iv).
Proof.
  intros Hr. destruct st as [visited groups], iv as [i co].
  unfold cluster_step, group_step, find_range.
  destruct (decide (i ∈ visited)); [done|].
  by destruct (Z.ltb_spec threshold 0); [lia|].
Qed.

Lemma cluster_loop_Ok verts threshold st ivs st' :
  for_res (cluster_step (build_tree verts) threshold) st ivs = Ok st' →
  st' = foldl (group_step verts threshold) st ivs.
Proof.
  revert st. induction ivs as [|iv ivs IH]; intros st; simpl.
  - by intros [= <-].
  - destruct (cluster_step _ _ st iv) as [st1|e] eqn:Hstep; [|done]. simpl.
    apply cluster_step_Ok in Hstep as ->. apply IH.
Qed.

Lemma cluster_loop_total verts threshold st ivs :
  0 ≤ threshold →
  for_res (cluster_step (build_tree verts) threshold) st ivs
    = Ok (foldl (group_step verts threshold) st ivs).
Proof.
  intros Hr. revert st. induction ivs as [|iv ivs IH]; intros st; simpl; [done|].
  rewrite cluster_step_total by done. simpl. apply IH.
Qed.

(** Whenever the loop returns, it returns the groups of the answered
    queries. *)
Lemma cluster_Ok verts threshold groups :
  cluster verts threshold = Ok groups → groups = groups_of verts threshold.
Proof.
  unfold cluster.
  destruct (for_res _ _ _) as [st|e] eqn:Hloop; [|done]. simpl.
  intros [= <-]. by apply cluster_loop_Ok in Hloop as ->.
Qed.

(** With a non-negative threshold the loop returns. *)
Lemma cluster_total verts threshold :
  0 ≤ threshold → cluster verts threshold = Ok (groups_of verts threshold).
Proof. intros Hr. unfold cluster. by rewrite cluster_loop_total. Qed.

(** With a negative threshold the first query, the one of vertex 0,
    raises. *)
Lemma cluster_negative verts threshold :
  threshold < 0 → verts ≠ [] → cluster verts threshold = Raise RuntimeError.
Proof.
  intros Hr Hne. destruct verts as [|co verts]; [done|].
  unfold cluster, enumerate. simpl. unfold find_range.
  rewrite decide_False by set_solver.
  by destruct (Z.ltb_spec threshold 0); [|lia].
Qed.

(** ** Merge map *)

Lemma last_group_with_exists i groups :
  (∃ g, g ∈ groups ∧ i ∈ g) → ∃ g, last_group_with i groups g.
Proof.
  induction groups as [|g0 gs IH]; intros (g & Hg & Hi).
  { by apply elem_of_nil in Hg. }
  destruct (decide (Exists (λ g', i ∈ g') gs)) as [Hlater|Hnone].
  - apply Exists_exists in Hlater.
    destruct (IH Hlater) as (g' & gs1 & gs2 & -> & ? & ?).
    exists g', (g0 :: gs1), gs2. done.
  - rewrite Exists_exists in Hnone.
    apply elem_of_cons in Hg as [->|Hg]; [|by destruct Hnone; eauto].
    exists g0, [], gs. split_and!; [done..|].
    intros g' Hg' Hi'. apply Hnone. eauto.
Qed.

Lemma assign_keeper_lookup (mm : gmap string nat) (keeper : nat) l i :
  assign_keeper keeper mm l !! str i =
  if decide (i ∈ l) then Some keeper else mm !! str i.
Proof.
  unfold assign_keeper. revert mm. induction l as [|x l IH]; intros mm; simpl.
  - done.
  - rewrite IH. destruct (decide (i ∈ l)) as [Hin|Hnin].
    + rewrite decide_True; [done|]. by apply elem_of_cons; right.
    + destruct (decide (i = x)) as [->|Hne].
      * rewrite lookup_insert_eq, decide_True; [done|]. by apply elem_of_cons; left.
      * rewrite lookup_insert_ne by (intros ?%str_inj; done).
        rewrite decide_False; [done|]. rewrite elem_of_cons. tauto.
Qed.

Lemma assign_keeper_values (mm : gmap string nat) (keeper : nat) l key v :
  assign_keeper keeper mm l !! key = Some v →
  mm !! key = Some v ∨ v = keeper.
Proof.
  unfold assign_keeper. revert mm. induction l as [|x l IH]; intros mm; simpl; [by left|].
  intros [Hm| ->]%IH; [|by right].
  destruct (decide (str x = key)) as [<-|Hne].
  - rewrite lookup_insert_eq in Hm. right. congruence.
  - rewrite lookup_insert_ne in Hm by done. by left.
Qed.

Lemma merge_map_untouched groups mm mm' i :
  for_res merge_group mm groups = Ok mm' →
  (∀ g, g ∈ groups → i ∉ g) → mm' !! str i = mm !! str i.
Proof.
  revert mm. induction groups as [|g gs IH]; intros mm Hrun Hout; simpl in Hrun.
  { by simplify_eq. }
  destruct g as [|k g]; [done|]. simpl in Hrun.
  rewrite (IH _ Hrun) by (intros g' Hg'; apply Hout; by apply elem_of_cons; right).
  rewrite assign_keeper_lookup, decide_False; [done|].
  apply Hout. by apply elem_of_cons; left.
Qed.

Lemma merge_map_last_group groups mm mm' i g :
  for_res merge_group mm groups = Ok mm' →
  last_group_with i groups g →
  ∃ k, head g = Some k ∧ mm' !! str i = Some k.
Proof.
  revert mm. induction groups as [|g0 gs IH]; intros mm Hrun (gs1 & gs2 & Heq & Hi & Hlast).
  { by destruct gs1. }
  simpl in Hrun. destruct g0 as [|k0 g0]; [done|]. simpl in Hrun.
  destruct gs1 as [|g1 gs1]; simplify_eq/=.
  - exists k0. split; [done|].
    rewrite (merge_map_untouched _ _ _ _ Hrun Hlast).
    by rewrite assign_keeper_lookup, decide_True.
  - eapply IH; [done|]. by exists gs1, gs2.
Qed.

Lemma merge_map_values groups mm mm' key v :
  for_res merge_group mm groups = Ok mm' →
  mm' !! key = Some v →
  mm !! key = Some v ∨ ∃ g, g ∈ groups ∧ head g = Some v.
Proof.
  revert mm. induction groups as [|g gs IH]; intros mm Hrun Hv; simpl in Hrun.
  { simplify_eq. by left. }
  destruct g as [|k g]; [done|]. simpl in Hrun.
  destruct (IH _ Hrun Hv) as [Hm|(g' & Hg' & Hh)].
  - apply assign_keeper_values in Hm as [Hm| ->]; [by left|].
    right. exists (k :: g). split; [by apply elem_of_cons; left|done].
  - right. exists g'. split; [by apply elem_of_cons; right|done].
Qed.

Lemma merge_map_total groups mm :
  Forall (λ g, g ≠ []) groups → ∃ mm', for_res merge_group mm groups = Ok mm'.
Proof.
  intros Hne. revert mm. induction Hne as [|g gs Hg _ IH]; intros mm; simpl.
  { by eexists. }
  destruct g as [|k g]; [done|]. simpl. apply IH.
Qed.

Lemma merge_map_ok_nonempty groups mm mm' :
  for_res merge_group mm groups = Ok mm' → Forall (λ g, g ≠ []) groups.
Proof.
  revert mm. induction groups as [|g gs IH]; intros mm Hrun; [constructor|].
  simpl in Hrun. destruct g as [|k g]; [done|]. simpl in Hrun.
  constructor; [done|]. by eapply IH.
Qed.


(** Every value of the merge map is a valid vertex id. *)
Lemma keeper_set_valid verts threshold mm k :
  build_merge_map (groups_of verts threshold) = Ok mm →
  k ∈ (map_img mm : gset nat) → (k < length verts)%nat.
Proof.
  intros Hrun (key & Hkey)%elem_of_map_img.
  destruct (merge_map_values _ _ _ _ _ Hrun Hkey) as [Hm|(g & Hg & Hh)].
  { by rewrite lookup_empty in Hm. }
  eapply cluster_group_valid; [done|]. destruct g; simplify_eq/=.
  by apply elem_of_cons; left.
Qed.


(** With a non-negative threshold no group is empty, so the merge map is built. *)
Lemma build_merge_map_total verts threshold :
  0 ≤ threshold → ∃ mm, build_merge_map (groups_of verts threshold) = Ok mm.
Proof.
  intros Hr. apply merge_map_total, Forall_forall.
  intros g Hg. by eapply cluster_group_nonempty.
Qed.

Lemma merge_map_entry verts threshold mm i :
  0 ≤ threshold → (i < length verts)%nat →
  build_merge_map (groups_of verts threshold) = Ok mm →
  ∃ g k, last_group_with i (groups_of verts threshold) g ∧ head g = Some k ∧
         mm !! str i = Some k.
Proof.
  intros Hr Hi Hrun.
  destruct (last_group_with_exists i (groups_of verts threshold)) as [g Hg].
  { by apply cluster_covers. }
  destruct (merge_map_last_group _ _ _ _ _ Hrun Hg) as (k & ? & ?). eauto.
Qed.

End merge_properties.

(** ** Index table *)

Lemma rank_S ks k :
  rank ks (S k) = if decide (k ∈ ks) then S (rank ks k) else rank ks k.
Proof.
  unfold rank. rewrite seq_S, filter_app, length_app. simpl.
  rewrite filter_cons, filter_nil.
  destruct (decide (k ∈ ks)); simpl; lia.
Qed.

Lemma rank_mono ks j k : (j ≤ k)%nat → (rank ks j ≤ rank ks k)%nat.
Proof.
  induction 1 as [|k _ IH]; [done|]. rewrite rank_S. destruct (decide _); lia.
Qed.

Lemma rank_lt ks j k : (j < k)%nat → j ∈ ks → (rank ks j < rank ks k)%nat.
Proof.
  intros Hlt Hj. pose proof (rank_mono ks (S j) k Hlt) as Hm.
  rewrite rank_S, decide_True in Hm by done. lia.
Qed.


Lemma rank_surj ks n c :
  (c < rank ks n)%nat → ∃ k, (k < n)%nat ∧ k ∈ ks ∧ rank ks k = c.
Proof.
  induction n as [|n IH]; [unfold rank; simpl; lia|].
  rewrite rank_S. destruct (decide (n ∈ ks)) as [Hn|Hn]; intros Hc.
  - destruct (decide (c = rank ks n)) as [->|Hne].
    + exists n. split; [lia|done].
    + destruct IH as (k & ? & ? & ?); [lia|]. exists k. split; [lia|done].
  - destruct (IH Hc) as (k & ? & ? & ?). exists k. split; [lia|done].
Qed.

Lemma rank_size ks n :
  (∀ k, k ∈ ks → (k < n)%nat) → rank ks n = size ks.
Proof.
  intros Hks. unfold rank.
  assert (NoDup (filter (λ j, j ∈ ks) (seq 0 n))) as Hnd.
  { apply NoDup_filter, NoDup_seq. }
  rewrite <-(size_list_to_set (C:=gset nat)) by done. f_equal.
  apply set_eq. intros k. rewrite elem_of_list_to_set, list_elem_of_filter, elem_of_seq.
  split; [tauto|]. intros Hk. split; [done|]. specialize (Hks k Hk). lia.
Qed.

(** State of the keeper enumeration after ids [0..n). *)
Lemma build_keepers_prefix coords ks n :
  (n ≤ length coords)%nat →
  ∃ nv im,
    for_res (keep_step coords ks) ([], ∅) (seq 0 n) = Ok (nv, im) ∧
    length nv = rank ks n ∧
    (∀ j, im !! j = if decide ((j < n)%nat ∧ j ∈ ks) then Some (rank ks j) else None) ∧
    (∀ j, (j < n)%nat → j ∈ ks → nv !! rank ks j = coords !! j).
Proof.
  induction n as [|n IH]; intros Hn.
  - exists [], ∅. split_and!; [done|done| |intros; lia].
    intros j. rewrite lookup_empty, decide_False; [done|]. lia.
  - destruct IH as (nv & im & Hrun & Hlen & Him & Hnv); [lia|].
    rewrite seq_S, for_res_snoc, Hrun. simpl.
    rewrite rank_S. destruct (decide (n ∈ ks)) as [Hk|Hk].
    + destruct (lookup_lt_is_Some_2 coords n) as [c Hc]; [lia|]. rewrite Hc.
      exists (nv ++ [c]), (<[n := length nv]> im). split_and!; [done|..].
      * rewrite length_app. simpl. lia.
      * intros j. destruct (decide (j = n)) as [->|Hne].
        -- rewrite lookup_insert_eq, decide_True by (split; [lia|done]).
           by rewrite Hlen.
        -- rewrite lookup_insert_ne, Him by done.
           destruct (decide ((j < n)%nat ∧ j ∈ ks)) as [[??]|Hno].
           ++ rewrite decide_True; [done|]. split; [lia|done].
           ++ rewrite decide_False; [done|]. intros [??]. apply Hno. split; [lia|done].
      * intros j Hj Hjk. destruct (decide (j = n)) as [->|Hne].
        -- rewrite <-Hlen, lookup_app_r, Nat.sub_diag by lia. by rewrite Hc.
        -- assert (j < n)%nat as Hlt by lia.
           pose proof (rank_lt ks j n Hlt Hjk).
           rewrite lookup_app_l by lia. by apply Hnv.
    + exists nv, im. split_and!; [done|done|..].
      * intros j. rewrite Him.
        destruct (decide ((j < n)%nat ∧ j ∈ ks)) as [[??]|Hno].
        -- rewrite decide_True; [done|]. split; [lia|done].
        -- rewrite decide_False; [done|]. intros [??].
           destruct (decide (j = n)) as [->|]; [done|]. apply Hno. split; [lia|done].
      * intros j Hj Hjk. apply Hnv; [|done].
        destruct (decide (j = n)) as [->|]; [done|lia].
Qed.

Lemma build_keepers_spec coords ks :
  ∃ nv im,
    build_keepers coords ks = Ok (nv, im) ∧
    length nv = rank ks (length coords) ∧
    (∀ j, im !! j = if decide ((j < length coords)%nat ∧ j ∈ ks)
                    then Some (rank ks j) else None) ∧
    (∀ j, (j < length coords)%nat → j ∈ ks → nv !! rank ks j = coords !! j).
Proof. by apply build_keepers_prefix. Qed.

(** ** Composition of the merge map with the index table (second loop) *)

Lemma remap_prefix merge_map im0 n h :
  (∀ key m, merge_map !! key = Some m → is_Some (im0 !! m)) →
  match for_M (remap_step merge_map) im0 (seq 0 n) h with
  | (Ok im, h') =>
      h' = h ∧ (∀ j, (j < n)%nat → is_Some (merge_map !! str j)) ∧
      remap_inv merge_map im0 n im
  | (Raise e, h') => h' = h ∧ ∃ j, (j < n)%nat ∧ merge_map !! str j = None
  end.
Proof.
  intros Hkeep. induction n as [|n IH].
  - simpl. split_and!; [done|intros; lia|].
    split; [done|eauto|intros; lia|intros; lia|intros; lia].
  - rewrite seq_S, for_M_snoc. simpl.
    destruct (for_M (remap_step merge_map) im0 (seq 0 n) h) as [[im|e] h'].
    2:{ destruct IH as (-> & j & ? & ?). split; [done|]. exists j. split; [lia|done]. }
    destruct IH as (-> & Hall & [Hlater Hcompact Hdone Hown Hvia]).
    unfold remap_step. destruct (merge_map !! str n) as [m|] eqn:Hm.
    2:{ unfold m_lift. split; [done|]. exists n. split; [lia|done]. }
    assert (is_Some (im !! m)) as [c Hc].
    { destruct (Hkeep _ _ Hm) as [c0 Hc0].
      destruct (decide (m < n)%nat) as [Hlt|Hge]; [by apply Hdone|].
      rewrite Hlater by lia. eauto. }
    rewrite Hc. unfold mret, M_ret. split_and!; [done|..].
    + intros j Hj. destruct (decide (j = n)) as [->|]; [eauto|]. apply Hall. lia.
    + split.
      * intros j Hj. rewrite lookup_insert_ne by lia. apply Hlater. lia.
      * intros j c'. destruct (decide (j = n)) as [->|].
        -- rewrite lookup_insert_eq. intros [= <-]. eauto.
        -- rewrite lookup_insert_ne by done. eauto.
      * intros j Hj. destruct (decide (j = n)) as [->|].
        -- rewrite lookup_insert_eq. eauto.
        -- rewrite lookup_insert_ne by done. apply Hdone. lia.
      * intros j Hj Hjm. destruct (decide (j = n)) as [->|].
        -- rewrite lookup_insert_eq. simplify_eq. rewrite <-Hc. by apply Hlater.
        -- rewrite lookup_insert_ne by done. apply Hown; [lia|done].
      * intros j m' Hj Hjm Hmm'. destruct (decide (j = n)) as [->|].
        -- rewrite lookup_insert_eq. simplify_eq. rewrite <-Hc.
           destruct (decide (m < n)%nat); [by apply Hown|apply Hlater; lia].
        -- rewrite lookup_insert_ne by done. apply (Hvia j m'); [lia|done..].
Qed.

(** *** The keeper the second loop resolves an id to *)

Lemma follow_merge_map_fuel mm f1 f2 i :
  (i < f1)%nat → (i < f2)%nat →
  follow_merge_map mm f1 i = follow_merge_map mm f2 i.
Proof.
  revert f2 i. induction f1 as [|f1 IH]; intros f2 i H1 H2; [lia|].
  destruct f2 as [|f2]; [lia|]. simpl.
  destruct (mm !! str i) as [m|]; [|done].
  destruct (decide (m < i)%nat); [|done]. apply IH; lia.
Qed.

Lemma follow_merge_map_S mm f i :
  follow_merge_map mm (S f) i =
  match mm !! str i with
  | Some m => if decide (m < i)%nat then follow_merge_map mm f m else m
  | None => i
  end.
Proof. done. Qed.

Lemma stored_keeper_step mm i m :
  mm !! str i = Some m →
  stored_keeper mm i = if decide (m < i)%nat then stored_keeper mm m else m.
Proof.
  intros Hm. unfold stored_keeper. rewrite (follow_merge_map_S mm i i), Hm.
  destruct (decide (m < i)%nat); [|done].
  apply follow_merge_map_fuel; lia.
Qed.

(** When the keeper of [i] is its own keeper, it is the keeper [i] is
    resolved to. *)
Lemma stored_keeper_fixed mm i k :
  mm !! str i = Some k → mm !! str k = Some k → stored_keeper mm i = k.
Proof.
  intros Hi Hk. rewrite (stored_keeper_step _ _ _ Hi).
  destruct (decide (k < i)%nat); [|done].
  rewrite (stored_keeper_step _ _ _ Hk). by rewrite decide_False by lia.
Qed.

(** The resolved keeper is reached along the merge map, in one step or more. *)
Lemma stored_keeper_reached mm n i :
  (∀ j, (j < n)%nat → is_Some (mm !! str j)) → (i < n)%nat →
  tc (merge_step mm) i (stored_keeper mm i).
Proof.
  intros Hall. induction i as [i IH] using lt_wf_ind. intros Hi.
  destruct (Hall i Hi) as [m Hm]. rewrite (stored_keeper_step _ _ _ Hm).
  destruct (decide (m < i)%nat) as [Hlt|Hge]; [|by apply tc_once].
  eapply tc_l; [done|]. apply IH; lia.
Qed.

Lemma stored_keeper_keeper mm n i :
  (∀ j, (j < n)%nat → is_Some (mm !! str j)) → (i < n)%nat →
  stored_keeper mm i ∈ (map_img mm : gset nat).
Proof.
  intros Hall Hi.
  assert (∀ a b, tc (merge_step mm) a b → b ∈ (map_img mm : gset nat)) as Htc.
  { intros a b Hab. induction Hab as [a b Hab|a b c _ _ IH]; [|done].
    apply elem_of_map_img. by exists (str a). }
  eapply Htc. by eapply stored_keeper_reached.
Qed.

(** The second loop leaves at every id the enumeration's entry of the keeper
    the id is resolved to. *)
Lemma remap_stored merge_map im0 n h im h' :
  (∀ key m, merge_map !! key = Some m → is_Some (im0 !! m)) →
  for_M (remap_step merge_map) im0 (seq 0 n) h = (Ok im, h') →
  ∀ j, (j < n)%nat → im !! j = im0 !! stored_keeper merge_map j.
Proof.
  intros Hdom. revert im h'. induction n as [|n IH]; intros im h' Hrun j Hj; [lia|].
  rewrite seq_S, for_M_snoc in Hrun.
  pose proof (remap_prefix merge_map im0 n h Hdom) as Hpre.
  destruct (for_M (remap_step merge_map) im0 (seq 0 n) h) as [[im1|e] h1]; [|done].
  destruct Hpre as (-> & _ & [Hlater _ Hdone _ _]).
  specialize (IH im1 h eq_refl). simpl in Hrun. unfold remap_step in Hrun.
  destruct (merge_map !! str n) as [m|] eqn:Hm; [|done].
  assert (is_Some (im1 !! m)) as [c Hc].
  { destruct (decide (m < n)%nat); [by apply Hdone|].
    rewrite Hlater by lia. by eapply Hdom. }
  rewrite Hc in Hrun. unfold mret, M_ret in Hrun. simplify_eq.
  destruct (decide (j = n)) as [->|Hne].
  - rewrite lookup_insert_eq, <-Hc, (stored_keeper_step _ _ _ Hm).
    destruct (decide (m < n)%nat) as [Hlt|Hge]; [by apply IH|apply Hlater; lia].
  - rewrite lookup_insert_ne by done. apply IH. lia.
Qed.

(** ** Face rewrite *)

Lemma rewrite_face_acc idx_map face acc r :
  for_res (λ acc i, match idx_map !! i with
                    | Some c => Ok (acc ++ [c])
                    | None => Raise KeyError
                    end) acc face = Ok r ↔
  ∃ r', r = acc ++ r' ∧ rewrites_to idx_map face r'.
Proof.
  unfold rewrites_to. revert acc. induction face as [|i face IH]; intros acc; simpl.
  - split.
    + intros [= <-]. exists []. by rewrite app_nil_r.
    + intros (r' & -> & ->%Forall2_nil_inv_l). by rewrite app_nil_r.
  - destruct (idx_map !! i) as [c|] eqn:Hi; simpl.
    + rewrite IH. split.
      * intros (r' & -> & Hr'). exists (c :: r'). rewrite <-app_assoc.
        split; [done|]. by constructor.
      * intros (r' & -> & Hr'). apply Forall2_cons_inv_l in Hr' as (c' & r'' & Hc & Hr'' & ->).
        simplify_eq. exists r''. by rewrite <-app_assoc.
    + split; [done|]. intros (r' & _ & Hr').
      apply Forall2_cons_inv_l in Hr' as (c' & r'' & Hc & _). congruence.
Qed.

Lemma rewrite_face_spec idx_map face r :
  rewrite_face idx_map face = Ok r ↔ rewrites_to idx_map face r.
Proof.
  unfold rewrite_face. rewrite rewrite_face_acc. simpl. split.
  - by intros (r' & -> & ?).
  - intros Hr. by exists r.
Qed.

Lemma rewrites_to_total idx_map face :
  (∀ i, i ∈ face → is_Some (idx_map !! i)) → ∃ r, rewrites_to idx_map face r.
Proof.
  unfold rewrites_to. induction face as [|i face IH]; intros Hall.
  - exists []. constructor.
  - destruct (Hall i) as [c Hc]; [by apply elem_of_cons; left|].
    destruct IH as [r Hr]; [intros j Hj; apply Hall; by apply elem_of_cons; right|].
    exists (c :: r). by constructor.
Qed.

Lemma rewrite_faces_acc idx_map faces acc nf :
  for_res (face_step idx_map) acc faces = Ok nf ↔
  ∃ rw, Forall2 (rewrites_to idx_map) faces rw ∧
        nf = acc ++ filter (λ r, NoDup r) rw.
Proof.
  revert acc. induction faces as [|f faces IH]; intros acc.
  - simpl. split.
    + intros [= <-]. exists []. split; [constructor|]. by rewrite app_nil_r.
    + intros (rw & ->%Forall2_nil_inv_l & ->). by rewrite app_nil_r.
  - rewrite for_res_cons.
    destruct (rewrite_face idx_map f) as [r|e] eqn:Hf.
    + assert (face_step idx_map acc f =
              Ok (if all_distinct r then acc ++ [r] else acc)) as ->.
      { unfold face_step. rewrite Hf. simpl. by destruct (all_distinct r). }
      change (for_res (face_step idx_map)
                (if all_distinct r then acc ++ [r] else acc) faces = Ok nf ↔
              ∃ rw, Forall2 (rewrites_to idx_map) (f :: faces) rw ∧
                    nf = acc ++ filter (λ r, NoDup r) rw).
      apply rewrite_face_spec in Hf.
      assert (∀ rw', Forall2 (rewrites_to idx_map) (f :: faces) rw' →
                ∃ rw, rw' = r :: rw ∧ Forall2 (rewrites_to idx_map) faces rw) as Hinv.
      { intros rw' (r0 & rw & Hr0 & Hrw & ->)%Forall2_cons_inv_l.
        exists rw. split; [|done]. f_equal.
        clear -Hf Hr0. unfold rewrites_to in *. revert r0 Hr0.
        induction Hf as [|i c f r Hic _ IH]; intros r0 Hr0.
        - by apply Forall2_nil_inv_l in Hr0.
        - apply Forall2_cons_inv_l in Hr0 as (c' & r0' & ? & ? & ->).
          f_equal; [congruence|]. by apply IH. }
      destruct (all_distinct r) eqn:Hd.
      * apply all_distinct_NoDup in Hd. rewrite IH. split.
        -- intros (rw & Hrw & ->). exists (r :: rw). split; [by constructor|].
           rewrite filter_cons_True by done. by rewrite <-app_assoc.
        -- intros (rw' & (rw & -> & Hrw)%Hinv & ->). exists rw. split; [done|].
           rewrite filter_cons_True by done. by rewrite <-app_assoc.
      * assert (¬ NoDup r) as Hnd.
        { intros Hnd%all_distinct_NoDup. congruence. }
        rewrite IH. split.
        -- intros (rw & Hrw & ->). exists (r :: rw). split; [by constructor|].
           by rewrite filter_cons_False.
        -- intros (rw' & (rw & -> & Hrw)%Hinv & ->). exists rw. split; [done|].
           by rewrite filter_cons_False.
    + assert (face_step idx_map acc f = Raise e) as ->.
      { unfold face_step. by rewrite Hf. }
      split; [done|]. intros (rw' & (r0 & rw & Hr0 & _)%Forall2_cons_inv_l & _).
      apply rewrite_face_spec in Hr0. congruence.
Qed.

Lemma rewrite_faces_spec idx_map faces nf :
  rewrite_faces idx_map faces = Ok nf ↔
  ∃ rw, Forall2 (rewrites_to idx_map) faces rw ∧ nf = filter (λ r, NoDup r) rw.
Proof. unfold rewrite_faces. by rewrite rewrite_faces_acc. Qed.

Lemma rewrite_faces_total idx_map faces :
  (∀ f i, f ∈ faces → i ∈ f → is_Some (idx_map !! i)) →
  ∃ nf, rewrite_faces idx_map faces = Ok nf.
Proof.
  intros Hall.
  assert (∃ rw, Forall2 (rewrites_to idx_map) faces rw) as [rw Hrw].
  { induction faces as [|f faces IH]; [exists []; constructor|].
    destruct (rewrites_to_total idx_map f) as [r Hr].
    { intros i Hi. eapply Hall; [|done]. by apply elem_of_cons; left. }
    destruct IH as [rw Hrw].
    { intros f' i Hf' Hi. eapply Hall; [|done]. by apply elem_of_cons; right. }
    exists (r :: rw). by constructor. }
  eexists. apply rewrite_faces_spec. eauto.
Qed.

(** ** The whole merge *)

Section merge_run.
Context `{PySetOrder} `{HN : HostNames}.

(** The tables behind a run of [smart_merge_topo] on [verts] and the facts
    that tie them together. *)
Lemma merge_tables_facts verts threshold mm nv im0 im h h' :
  build_merge_map (groups_of verts threshold) = Ok mm →
  build_keepers verts (map_img mm) = Ok (nv, im0) →
  remap_all mm (length verts) im0 h = (Ok im, h') →
  h' = h ∧
  length nv = size (map_img mm : gset nat) ∧
  (∀ j, im0 !! j = if decide (j ∈ (map_img mm : gset nat))
                   then Some (rank (map_img mm) j) else None) ∧
  (∀ j, j ∈ (map_img mm : gset nat) → nv !! rank (map_img mm) j = verts !! j) ∧
  (∀ j, (j < length verts)%nat → is_Some (mm !! str j)) ∧
  remap_inv mm im0 (length verts) im.
Proof.
  intros Hmm Hkeep Hremap.
  pose proof (keeper_set_valid verts threshold mm) as Hvalid.
  specialize (λ k, Hvalid k Hmm).
  destruct (build_keepers_spec verts (map_img mm)) as (nv' & im0' & Hk' & Hlen & Him0 & Hnv).
  rewrite Hkeep in Hk'. simplify_eq.
  assert (∀ j, im0' !! j = if decide (j ∈ (map_img mm : gset nat))
                           then Some (rank (map_img mm) j) else None) as Him0'.
  { intros j. rewrite Him0. destruct (decide (j ∈ (map_img mm : gset nat))) as [Hj|Hj].
    - rewrite decide_True; [done|]. split; [by apply Hvalid|done].
    - rewrite decide_False; [done|]. tauto. }
  assert (∀ key m, mm !! key = Some m → is_Some (im0' !! m)) as Hdom.
  { intros key m Hm. rewrite Him0', decide_True; [eauto|].
    apply elem_of_map_img. eauto. }
  pose proof (remap_prefix mm im0' (length verts) h Hdom) as Hpre.
  unfold remap_all in Hremap. rewrite Hremap in Hpre.
  destruct Hpre as (-> & Hall & Hinv).
  split_and!; [done| |done| |done|done].
  - rewrite Hlen. by apply rank_size.
  - intros j Hj. apply Hnv; [by apply Hvalid|done].
Qed.

(** The stored table in terms of the merge map alone. *)
Lemma stored_table_entries verts threshold mm nv im0 im h h' :
  build_merge_map (groups_of verts threshold) = Ok mm →
  build_keepers verts (map_img mm) = Ok (nv, im0) →
  remap_all mm (length verts) im0 h = (Ok im, h') →
  ∀ i, (i < length verts)%nat →
    stored_keeper mm i ∈ (map_img mm : gset nat) ∧
    tc (merge_step mm) i (stored_keeper mm i) ∧
    im !! i = Some (rank (map_img mm) (stored_keeper mm i)) ∧
    nv !! rank (map_img mm) (stored_keeper mm i) = verts !! stored_keeper mm i.
Proof.
  intros Hmm Hkeep Hremap i Hi.
  destruct (merge_tables_facts _ _ _ _ _ _ _ _ Hmm Hkeep Hremap)
    as (_ & _ & Him0 & Hnv & Hall & _).
  assert (∀ key m, mm !! key = Some m → is_Some (im0 !! m)) as Hdom.
  { intros key m Hm. rewrite Him0, decide_True; [eauto|].
    apply elem_of_map_img. eauto. }
  pose proof (stored_keeper_keeper mm _ i Hall Hi) as Hk.
  split_and!; [done|by eapply stored_keeper_reached| |by apply Hnv].
  unfold remap_all in Hremap.
  rewrite (remap_stored _ _ _ _ _ _ Hdom Hremap i Hi), Him0. by rewrite decide_True.
Qed.

Lemma smart_merge_topo_inv obj threshold h obj' h' :
  smart_merge_topo obj threshold h = (Ok obj', h') →
  ∃ mm nv im0 im nf,
    build_merge_map (groups_of (vertices (data obj)) threshold) = Ok mm ∧
    build_keepers (vertices (data obj)) (map_img mm) = Ok (nv, im0) ∧
    remap_all mm (length (vertices (data obj))) im0 h = (Ok im, h) ∧
    rewrite_faces im (polygons (data obj)) = Ok nf ∧
    obj' = merged_object obj nv nf im h ∧
    h' = merged_host obj nv nf h.
Proof.
  unfold smart_merge_topo, mbind, M_bind, m_lift, mret, M_ret.
  destruct (cluster _ _) as [groups|e] eqn:Hcl; [|done].
  apply cluster_Ok in Hcl as ->.
  destruct (build_merge_map _) as [mm|e] eqn:Hmm; [|done].
  destruct (build_keepers _ _) as [[nv im0]|e] eqn:Hkeep; [|done].
  destruct (remap_all _ _ _ h) as [[im|e] h1] eqn:Hremap; [|done].
  destruct (merge_tables_facts _ _ _ _ _ _ _ _ Hmm Hkeep Hremap) as (-> & _).
  destruct (rewrite_faces _ _) as [nf|e] eqn:Hfaces; [|done].
  simpl. intros [= <- <-]. by exists mm, nv, im0, im, nf.
Qed.

(** A merge that completes had its groups formed. *)
Lemma smart_merge_topo_cluster obj threshold h obj' h' :
  smart_merge_topo obj threshold h = (Ok obj', h') →
  cluster (vertices (data obj)) threshold
    = Ok (groups_of (vertices (data obj)) threshold).
Proof.
  unfold smart_merge_topo, mbind, M_bind, m_lift.
  destruct (cluster _ _) as [groups|e] eqn:Hcl; [|done].
  intros _. by rewrite (cluster_Ok _ _ _ Hcl).
Qed.

Lemma smart_merge_topo_run obj threshold h mm nv im0 im nf :
  cluster (vertices (data obj)) threshold
    = Ok (groups_of (vertices (data obj)) threshold) →
  build_merge_map (groups_of (vertices (data obj)) threshold) = Ok mm →
  build_keepers (vertices (data obj)) (map_img mm) = Ok (nv, im0) →
  remap_all mm (length (vertices (data obj))) im0 h = (Ok im, h) →
  rewrite_faces im (polygons (data obj)) = Ok nf →
  smart_merge_topo obj threshold h =
    (Ok (merged_object obj nv nf im h), merged_host obj nv nf h).
Proof.
  intros Hcl Hmm Hkeep Hremap Hfaces.
  unfold smart_merge_topo, mbind, M_bind, m_lift, mret, M_ret.
  by rewrite Hcl, Hmm, Hkeep, Hremap, Hfaces.
Qed.

(** With a non-negative threshold and valid faces the merge runs to its end. *)
Lemma smart_merge_topo_total obj threshold h :
  0 ≤ threshold →
  faces_valid (length (vertices (data obj))) (polygons (data obj)) →
  ∃ mm nv im0 im nf,
    build_merge_map (groups_of (vertices (data obj)) threshold) = Ok mm ∧
    build_keepers (vertices (data obj)) (map_img mm) = Ok (nv, im0) ∧
    remap_all mm (length (vertices (data obj))) im0 h = (Ok im, h) ∧
    rewrite_faces im (polygons (data obj)) = Ok nf ∧
    smart_merge_topo obj threshold h =
      (Ok (merged_object obj nv nf im h), merged_host obj nv nf h).
Proof.
  intros Hr Hfaces. set (verts := vertices (data obj)) in *.
  destruct (build_merge_map_total verts threshold Hr) as [mm Hmm].
  destruct (build_keepers_spec verts (map_img mm)) as (nv & im0 & Hkeep & _ & Him0 & _).
  assert (∀ key m, mm !! key = Some m → is_Some (im0 !! m)) as Hdom.
  { intros key m Hm. assert (m ∈ (map_img mm : gset nat)) as Hin.
    { apply elem_of_map_img. eauto. }
    rewrite Him0, decide_True; [eauto|]. split; [|done].
    by eapply keeper_set_valid. }
  pose proof (remap_prefix mm im0 (length verts) h Hdom) as Hpre.
  destruct (for_M (remap_step mm) im0 (seq 0 (length verts)) h) as [[im|e] h1] eqn:Hremap.
  2:{ destruct Hpre as (_ & j & Hj & Hnone).
      destruct (merge_map_entry verts threshold mm j Hr Hj Hmm) as (g & k & _ & _ & Hk).
      congruence. }
  destruct Hpre as (-> & _ & Hinv).
  destruct (rewrite_faces_total im (polygons (data obj))) as [nf Hnf].
  { intros f i Hf Hi. apply (remap_done _ _ _ _ Hinv). by eapply Hfaces. }
  exists mm, nv, im0, im, nf. split_and!; [done..|].
  apply (smart_merge_topo_run _ _ _ mm nv im0); [|done..].
  by apply cluster_total.
Qed.

End merge_run.

(** ** Restore *)

Global Instance str_Inj : Inj (=) (=) str.
Proof. intros i j. apply str_inj. Qed.

Lemma restore_loop_ok mapping current n :
  (∀ i, (i < n)%nat → entry_ok mapping current i) →
  ∃ rc, for_res (restore_step mapping current) [] (seq 0 n) = Ok rc ∧
        length rc = n ∧
        ∀ i, (i < n)%nat →
          ∃ c p, mapping !! str i = Some c ∧ py_index current c = Ok p ∧
                 rc !! i = Some p.
Proof.
  induction n as [|n IH]; intros Hall.
  - exists []. split_and!; [done..|]. intros; lia.
  - destruct IH as (rc & Hrun & Hlen & Hrc); [intros i Hi; apply Hall; lia|].
    destruct (Hall n) as (c & p & Hc & Hp); [lia|].
    exists (rc ++ [p]). rewrite seq_S, for_res_snoc, Hrun. simpl.
    unfold restore_step. rewrite Hc, Hp. simpl. split_and!; [done|..].
    + rewrite length_app. simpl. lia.
    + intros i Hi. destruct (decide (i = n)) as [->|Hne].
      * exists c, p. split_and!; [done..|].
        by rewrite lookup_app_r, Hlen, Nat.sub_diag by lia.
      * destruct (Hrc i) as (c' & p' & ? & ? & ?); [lia|].
        exists c', p'. split_and!; [done..|].
        rewrite lookup_app_l by lia. done.
Qed.

Lemma restore_loop_fail mapping current n i :
  (i < n)%nat → ¬ entry_ok mapping current i →
  ∃ e, for_res (restore_step mapping current) [] (seq 0 n) = Raise e.
Proof.
  induction n as [|n IH]; intros Hi Hbad; [lia|].
  rewrite seq_S, for_res_snoc.
  destruct (for_res _ [] (seq 0 n)) as [rc|e] eqn:Hrun; simpl; [|by eauto].
  destruct (decide (i = n)) as [->|Hne].
  2:{ destruct IH as [e He]; [lia|done|congruence]. }
  unfold restore_step. destruct (mapping !! str n) as [c|] eqn:Hc; [|by eauto].
  destruct (py_index current c) as [p|e] eqn:Hp; simpl; [|by eauto].
  destruct Hbad. by exists c, p.
Qed.

Lemma smart_restore_topo_run `{HN : HostNames} obj d rc h :
  load_merge_data obj = Some d →
  for_res (restore_step (mapping d) (vertices (data obj))) []
          (seq 0 (length (original_coords d))) = Ok rc →
  smart_restore_topo obj h = (Ok tt, restored_host obj rc d h).
Proof.
  intros Hd Hrun. unfold smart_restore_topo. rewrite Hd.
  unfold mbind, M_bind, m_lift. by rewrite Hrun.
Qed.

Lemma smart_restore_topo_raise `{HN : HostNames} obj d e h :
  load_merge_data obj = Some d →
  for_res (restore_step (mapping d) (vertices (data obj))) []
          (seq 0 (length (original_coords d))) = Raise e →
  smart_restore_topo obj h = (Raise e, h).
Proof.
  intros Hd Hrun. unfold smart_restore_topo. rewrite Hd.
  unfold mbind, M_bind, m_lift. by rewrite Hrun.
Qed.

Lemma load_merged_object `{HN : HostNames} obj nv nf im h :
  load_merge_data (merged_object obj nv nf im h) =
  Some (mkMergeData (kmap str (Z.of_nat <$> im)) (vertices (data obj))
                    (polygons (data obj))).
Proof. unfold load_merge_data, merged_object, store_merge_data. simpl. apply lookup_insert_eq. Qed.

Lemma stored_mapping_lookup (im : gmap nat nat) i :
  (kmap str (Z.of_nat <$> im) : gmap string Z) !! str i = Z.of_nat <$> im !! i.
Proof. rewrite lookup_kmap by apply str_Inj. by rewrite lookup_fmap. Qed.

(** Restore on a record whose entries all index the current vertices. *)
Lemma smart_restore_topo_valid `{HN : HostNames} obj d h :
  load_merge_data obj = Some d →
  (∀ i, (i < length (original_coords d))%nat →
        ∃ c, mapping d !! str i = Some c ∧
             0 ≤ c < Z.of_nat (length (vertices (data obj)))) →
  ∃ rc,
    smart_restore_topo obj h = (Ok tt, restored_host obj rc d h) ∧
    length rc = length (original_coords d) ∧
    (∀ i c, (i < length (original_coords d))%nat → mapping d !! str i = Some c →
            rc !! i = vertices (data obj) !! Z.to_nat c).
Proof.
  intros Hd Hvalid.
  destruct (restore_loop_ok (mapping d) (vertices (data obj))
              (length (original_coords d))) as (rc & Hrun & Hlen & Hrc).
  { intros i Hi. destruct (Hvalid i Hi) as (c & Hc & Hrange).
    destruct (py_index_in_range (vertices (data obj)) c Hrange) as (p & _ & Hp).
    by exists c, p. }
  exists rc. split_and!; [by apply smart_restore_topo_run|done|].
  intros i c Hi Hc. destruct (Hrc i Hi) as (c' & p & Hc' & Hp & ->).
  destruct (Hvalid i Hi) as (c'' & Hc'' & Hrange). simplify_eq.
  destruct (py_index_in_range (vertices (data obj)) c Hrange) as (p' & -> & Hp').
  congruence.
Qed.

(** * Claims about restore *)

(** C8. Restore on an object without a merge record prints that nothing was
    found and returns normally; no mesh or object is created and nothing is
    linked. *)
Theorem restore_without_record `{HN : HostNames} obj h :
  load_merge_data obj = None →
  ∃ h', smart_restore_topo obj h = (Ok tt, h') ∧
        data_meshes h' = data_meshes h ∧
        data_objects h' = data_objects h ∧
        collection_objects h' = collection_objects h ∧
        stdout h' = stdout h ++ ["No smart merge data found."%string].
Proof.
  intros Hnone. unfold smart_restore_topo. rewrite Hnone.
  eexists. split; [reflexivity|]. done.
Qed.

Lemma restore_without_record_witness :
  load_merge_data line3 = None ∧
  ∃ h', smart_restore_topo (HN:=suffix_names) line3 host0 = (Ok tt, h') ∧
        data_meshes h' = data_meshes host0 ∧
        data_objects h' = data_objects host0 ∧
        collection_objects h' = collection_objects host0 ∧
        stdout h' = stdout host0 ++ ["No smart merge data found."%string].
Proof.
  split; [reflexivity|]. apply (restore_without_record (HN:=suffix_names) line3 host0). reflexivity.
Defined.

(** C9, as stated, fails: a record whose index table has more entries than
    stored coordinates is not detected; restore completes and creates and
    links a new object. *)
Lemma restore_long_record_completes :
  size (mapping long_data) = 2%nat ∧
  length (original_coords long_data) = 1%nat ∧
  load_merge_data long_record = Some long_data ∧
  smart_restore_topo (HN:=suffix_names) long_record host0 =
    (Ok tt,
     let me := mkMesh "Long_restored" [(7,0,0)] [] in
     let ob := mkObject "Long_restored" me ∅ in
     mkHost [me] [ob] [ob] ["Smart restore complete."%string]).
Proof. split_and!; by vm_compute. Qed.

(** C9, amended. When the record lacks the entry of some original id, or maps
    it outside the current vertex array, restore stops with an exception
    before anything is created: the host is exactly as it was. *)
Theorem restore_malformed_record `{HN : HostNames} obj d h i :
  load_merge_data obj = Some d →
  (i < length (original_coords d))%nat →
  (mapping d !! str i = None ∨
   ∃ c e, mapping d !! str i = Some c ∧ py_index (vertices (data obj)) c = Raise e) →
  ∃ e, smart_restore_topo obj h = (Raise e, h).
Proof.
  intros Hd Hi Hbad.
  destruct (restore_loop_fail (mapping d) (vertices (data obj))
              (length (original_coords d)) i Hi) as [e He].
  { intros (c & p & Hc & Hp). destruct Hbad as [Hn|(c' & e & Hc' & He)]; congruence. }
  exists e. by apply smart_restore_topo_raise with d.
Qed.

Lemma restore_malformed_record_witness :
  load_merge_data short_record = Some short_data ∧
  (1 < length (original_coords short_data))%nat ∧
  mapping short_data !! str 1 = None ∧
  ∃ e, smart_restore_topo (HN:=suffix_names) short_record host0 = (Raise e, host0).
Proof.
  split; [by vm_compute|]. split; [simpl; lia|]. split; [by vm_compute|].
  apply (restore_malformed_record (HN:=suffix_names) short_record short_data host0 1%nat).
  - by vm_compute.
  - simpl. lia.
  - left. by vm_compute.
Defined.

(** C4. With a record that has, for every original id, a compact id inside
    the current vertex array, restore creates a mesh whose vertex [i] is the
    current position of compact vertex [mapping[str(i)]] and whose faces are
    the stored faces; ids with the same compact id land on the same point.
    The stored original coordinates contribute only their count. *)
Theorem restore_takes_current_positions `{HN : HostNames} obj d h :
  load_merge_data obj = Some d →
  (∀ i, (i < length (original_coords d))%nat →
        ∃ c, mapping d !! str i = Some c ∧
             0 ≤ c < Z.of_nat (length (vertices (data obj)))) →
  ∃ rc,
    smart_restore_topo obj h = (Ok tt, restored_host obj rc d h) ∧
    length rc = length (original_coords d) ∧
    (∀ i c, (i < length (original_coords d))%nat → mapping d !! str i = Some c →
            rc !! i = vertices (data obj) !! Z.to_nat c) ∧
    (∀ i j, (i < length (original_coords d))%nat →
            (j < length (original_coords d))%nat →
            mapping d !! str i = mapping d !! str j → rc !! i = rc !! j).
Proof.
  intros Hd Hvalid.
  destruct (smart_restore_topo_valid obj d h Hd Hvalid) as (rc & Hrun & Hlen & Hpos).
  exists rc. split_and!; [done..|].
  intros i j Hi Hj Heq. destruct (Hvalid i Hi) as (c & Hc & _).
  rewrite (Hpos i c Hi Hc). symmetry. apply Hpos; [done|congruence].
Qed.

Lemma restore_takes_current_positions_witness :
  load_merge_data long_record = Some long_data ∧
  (∀ i, (i < length (original_coords long_data))%nat →
        ∃ c, mapping long_data !! str i = Some c ∧
             0 ≤ c < Z.of_nat (length (vertices (data long_record)))) ∧
  ∃ rc,
    smart_restore_topo (HN:=suffix_names) long_record host0 =
      (Ok tt, restored_host (HN:=suffix_names) long_record rc long_data host0) ∧
    length rc = length (original_coords long_data) ∧
    (∀ i c, (i < length (original_coords long_data))%nat →
            mapping long_data !! str i = Some c →
            rc !! i = vertices (data long_record) !! Z.to_nat c) ∧
    (∀ i j, (i < length (original_coords long_data))%nat →
            (j < length (original_coords long_data))%nat →
            mapping long_data !! str i = mapping long_data !! str j →
            rc !! i = rc !! j).
Proof.
  assert (load_merge_data long_record = Some long_data) as Hd by (by vm_compute).
  assert (∀ i, (i < length (original_coords long_data))%nat →
            ∃ c, mapping long_data !! str i = Some c ∧
                 0 ≤ c < Z.of_nat (length (vertices (data long_record)))) as Hv.
  { intros i Hi. simpl in Hi. assert (i = 0%nat) as -> by lia.
    exists 0. split; [by vm_compute|simpl; lia]. }
  split; [exact Hd|]. split; [exact Hv|].
  apply (restore_takes_current_positions (HN:=suffix_names) long_record long_data host0 Hd Hv).
Defined.

(** * Claims about clustering and the merge map *)

(** C2, as stated, fails: with three collinear vertices 6 apart and threshold
    10 the groups are [0,1] and [1,2]; vertex 1 is in both. *)
Lemma cluster_not_partition :
  ∃ groups,
    cluster (H:=ascending_order) (vertices (data line3)) 10 = Ok groups ∧
    groups = [[0;1];[1;2]]%nat ∧
    ¬ partition_of 3 groups.
Proof.
  exists [[0;1];[1;2]]%nat. split_and!; [by vm_compute|done|].
  intros Hp.
  destruct (Hp 1%nat) as (k & _ & Huniq); [lia|].
  assert (0%nat = k) as H0.
  { apply Huniq. exists [0;1]%nat. split; [done|]. set_solver. }
  assert (1%nat = k) as H1.
  { apply Huniq. exists [1;2]%nat. split; [done|]. set_solver. }
  lia.
Qed.

(** C2, amended. With a non-negative threshold the clustering loop returns,
    and every original id is listed by at least one of its groups; every
    group lists valid ids, each once. (Groups may share ids: the radius query
    is not filtered by the visited set.) *)
Theorem cluster_covers_ids `{PySetOrder} verts threshold :
  0 ≤ threshold →
  ∃ groups,
    cluster verts threshold = Ok groups ∧
    (∀ i, (i < length verts)%nat → ∃ g, g ∈ groups ∧ i ∈ g) ∧
    (∀ g, g ∈ groups → NoDup g ∧ ∀ j, j ∈ g → (j < length verts)%nat).
Proof.
  intros Hr. exists (groups_of verts threshold).
  split_and!; [by apply cluster_total| |].
  - intros i Hi. by apply cluster_covers.
  - intros g Hg. split; [by eapply cluster_group_NoDup|].
    intros j Hj. by eapply cluster_group_valid.
Qed.

Lemma cluster_covers_ids_witness :
  0 ≤ 10 ∧
  ∃ groups,
    cluster (H:=ascending_order) (vertices (data line3)) 10 = Ok groups ∧
    (∀ i, (i < 3)%nat → ∃ g, g ∈ groups ∧ i ∈ g) ∧
    (∀ g, g ∈ groups → NoDup g ∧ ∀ j, j ∈ g → (j < 3)%nat).
Proof.
  split; [lia|].
  apply (cluster_covers_ids (H:=ascending_order) (vertices (data line3)) 10). lia.
Defined.

(** C1, as stated, fails: on the three collinear vertices the second group
    [1,2] overwrites the entry of vertex 1, a member of the first group [0,1]
    whose least id is 0. *)
Lemma merge_map_not_minimum :
  ∃ groups mm,
    cluster (H:=ascending_order) (vertices (data line3)) 10 = Ok groups ∧
    build_merge_map groups = Ok mm ∧
    mm !! str 1 = Some 1%nat ∧
    ¬ keeps_minimum groups mm.
Proof.
  destruct (build_merge_map_total (H:=ascending_order) (vertices (data line3)) 10)
    as [mm Hmm]; [lia|].
  assert (groups_of (H:=ascending_order) (vertices (data line3)) 10
          = [[0;1];[1;2]]%nat) as Hc by (by vm_compute).
  assert (mm !! str 1 = Some 1%nat) as H1.
  { destruct (merge_map_last_group _ _ _ 1%nat [1;2]%nat Hmm) as (k & Hk & ->).
    - rewrite Hc. exists [[0;1]%nat], []. split_and!; [done|set_solver|set_solver].
    - by simplify_eq/=. }
  exists (groups_of (H:=ascending_order) (vertices (data line3)) 10), mm.
  split_and!; [by apply cluster_total|done..|]. rewrite Hc. intros Hmin.
  destruct (Hmin [0;1]%nat 1%nat) as (k & Hk & _ & Hle); [set_solver..|].
  assert (k = 1%nat) as -> by congruence.
  assert (1 ≤ 0)%nat; [|lia]. apply Hle. set_solver.
Qed.

(** C1, amended. With a non-negative threshold the groups are formed and the
    merge map is built, and it sends every original id to the first listed
    element of the last group that lists the id; that keeper is a member of
    the group, and it is the group's least id whenever the group is listed
    in ascending order. *)
Theorem merge_map_sends_to_first_listed `{PySetOrder} verts threshold :
  0 ≤ threshold →
  ∃ groups mm,
    cluster verts threshold = Ok groups ∧
    build_merge_map groups = Ok mm ∧
    ∀ i, (i < length verts)%nat →
      ∃ g k, last_group_with i groups g ∧
             head g = Some k ∧ k ∈ g ∧ mm !! str i = Some k ∧
             (Sorted Nat.le g → ∀ j, j ∈ g → (k ≤ j)%nat).
Proof.
  intros Hr. destruct (build_merge_map_total verts threshold Hr) as [mm Hmm].
  exists (groups_of verts threshold), mm.
  split_and!; [by apply cluster_total|done|]. intros i Hi.
  destruct (merge_map_entry verts threshold mm i Hr Hi Hmm) as (g & k & Hg & Hk & Hmi).
  exists g, k. split_and!; [done|done| |done|].
  - destruct g; simplify_eq/=. by apply elem_of_cons; left.
  - intros Hs j Hj. destruct g as [|k' g]; simplify_eq/=.
    apply Sorted_StronglySorted in Hs; [|intros ???; lia].
    apply StronglySorted_inv in Hs as [_ Hall].
    apply elem_of_cons in Hj as [->|Hj]; [done|].
    rewrite Forall_forall in Hall. by apply Hall.
Qed.

Lemma merge_map_sends_to_first_listed_witness :
  0 ≤ 10 ∧
  ∃ groups mm,
    cluster (H:=ascending_order) (vertices (data line3)) 10 = Ok groups ∧
    build_merge_map groups = Ok mm ∧
    ∀ i, (i < 3)%nat →
      ∃ g k, last_group_with i groups g ∧
             head g = Some k ∧ k ∈ g ∧ mm !! str i = Some k ∧
             (Sorted Nat.le g → ∀ j, j ∈ g → (k ≤ j)%nat).
Proof.
  split; [lia|].
  apply (merge_map_sends_to_first_listed (H:=ascending_order)
           (vertices (data line3)) 10). lia.
Defined.

(** * Claims about the index table and the rebuilt mesh *)

(** On the chain of six, vertex 3 is the keeper of vertex 4 in the merge map
    and gets compact id 3, but a later group re-sends 3 to keeper 2 before
    the second loop reaches 4: the stored table sends 4 to compact id 2 and
    no stored entry names compact id 3. *)
Example stored_table_on_chain :
  ∃ groups mm obj' h' d,
    cluster (H:=ascending_order) (vertices (data overlap6)) 10 = Ok groups ∧
    groups = [[0;2]; [1;3]; [3;4]; [2;3;5]]%nat ∧
    build_merge_map groups = Ok mm ∧
    (λ i, mm !! str i) <$> seq 0 6
      = [Some 0; Some 1; Some 2; Some 2; Some 3; Some 2]%nat ∧
    smart_merge_topo (H:=ascending_order) (HN:=suffix_names) overlap6 10 host0
      = (Ok obj', h') ∧
    vertices (data obj') = [(35,0,0); (10,10,0); (29,0,0); (10,0,0)] ∧
    polygons (data obj') = [[0;1;2]]%nat ∧
    load_merge_data obj' = Some d ∧
    (λ i, mapping d !! str i) <$> seq 0 6
      = [Some 0; Some 1; Some 2; Some 2; Some 2; Some 2].
Proof.
  eexists _, _, _, _, _.
  split; [vm_compute; reflexivity|]. split; [reflexivity|].
  split; [vm_compute; reflexivity|]. split; [vm_compute; reflexivity|].
  split; [vm_compute; reflexivity|]. split; [vm_compute; reflexivity|].
  split; [vm_compute; reflexivity|]. split; vm_compute; reflexivity.
Qed.

(** C6, as stated, fails for the table the merge stores: on the chain of six
    there are four keepers and four rebuilt vertices, but the second loop
    overwrites the entry of keeper 3 with the compact id of keeper 2, so two
    keepers share compact id 2 and no entry of the stored table is 3. *)
Lemma stored_table_not_compact :
  ∃ groups mm obj' h' d,
    cluster (H:=ascending_order) (vertices (data overlap6)) 10 = Ok groups ∧
    build_merge_map groups = Ok mm ∧
    smart_merge_topo (H:=ascending_order) (HN:=suffix_names) overlap6 10 host0
      = (Ok obj', h') ∧
    load_merge_data obj' = Some d ∧
    size (map_img mm : gset nat) = 4%nat ∧
    length (vertices (data obj')) = 4%nat ∧
    2%nat ∈ (map_img mm : gset nat) ∧
    3%nat ∈ (map_img mm : gset nat) ∧
    mapping d !! str 2 = Some 2 ∧
    mapping d !! str 3 = Some 2 ∧
    map_Forall (λ _ c, c ≠ 3) (mapping d) ∧
    ¬ compact_ids (map_img mm) (mapping d).
Proof.
  eexists _, _, _, _, _.
  split; [vm_compute; reflexivity|]. split; [vm_compute; reflexivity|].
  split; [vm_compute; reflexivity|]. split; [vm_compute; reflexivity|].
  split; [vm_compute; reflexivity|]. split; [vm_compute; reflexivity|].
  match goal with
  | |- ?P2 ∧ ?P3 ∧ _ => assert P2 as H2; [|assert P3 as H3]
  end.
  { apply elem_of_map_img. exists (str 2). vm_compute. reflexivity. }
  { apply elem_of_map_img. exists (str 4). vm_compute. reflexivity. }
  split; [exact H2|]. split; [exact H3|].
  split; [vm_compute; reflexivity|]. split; [vm_compute; reflexivity|].
  split.
  - apply (bool_decide_unpack _). vm_compute. reflexivity.
  - intros (_ & _ & Hinj).
    assert (2%nat = 3%nat) as Heq; [|lia].
    apply Hinj; [exact H2|exact H3|]. vm_compute. reflexivity.
Qed.


(** C10. When the merge completes, every original id has an entry in the
    stored mapping and the entry is below the number of keepers; every index
    of every rebuilt face is below the length of the rebuilt vertex array,
    which is the number of keepers; and the console received the success line
    only: the missing-keeper warning was never printed. *)
Theorem rebuilt_mesh_in_range `{PySetOrder} `{HN : HostNames} obj threshold h obj' h' :
  smart_merge_topo obj threshold h = (Ok obj', h') →
  ∃ groups mm d,
    cluster (vertices (data obj)) threshold = Ok groups ∧
    build_merge_map groups = Ok mm ∧
    load_merge_data obj' = Some d ∧
    (∀ i, (i < length (vertices (data obj)))%nat →
          ∃ c, mapping d !! str i = Some c ∧
               0 ≤ c < Z.of_nat (size (map_img mm : gset nat))) ∧
    length (vertices (data obj')) = size (map_img mm : gset nat) ∧
    (∀ f c, f ∈ polygons (data obj') → c ∈ f →
            (c < length (vertices (data obj')))%nat) ∧
    stdout h' = stdout h ++ ["Smart merge successful."%string].
Proof.
  intros Hrun.
  pose proof (smart_merge_topo_cluster _ _ _ _ _ Hrun) as Hcl.
  destruct (smart_merge_topo_inv _ _ _ _ _ Hrun)
    as (mm & nv & im0 & im & nf & Hmm & Hkeep & Hremap & Hfaces & -> & ->).
  destruct (merge_tables_facts _ _ _ _ _ _ _ _ Hmm Hkeep Hremap)
    as (_ & Hlen & Him0 & Hnv & _ & Hinv).
  pose proof (λ k, keeper_set_valid _ _ _ k Hmm) as Hvalid.
  pose proof (rank_size (map_img mm) _ Hvalid) as Hsz.
  assert (∀ j c, im !! j = Some c →
                 (c < size (map_img mm : gset nat))%nat) as Hbound.
  { intros j c Hc. destruct (remap_compact _ _ _ _ Hinv j c Hc) as (m & Hm).
    rewrite Him0 in Hm. destruct (decide (m ∈ _)); [|done]. simplify_eq.
    rewrite <-Hsz. apply rank_lt; [|done]. by apply Hvalid. }
  exists (groups_of (vertices (data obj)) threshold), mm. eexists.
  split_and!; [done|done|apply load_merged_object|..]; simpl.
  - intros i Hi. destruct (remap_done _ _ _ _ Hinv i Hi) as [c Hc].
    exists (Z.of_nat c). rewrite stored_mapping_lookup, Hc. split; [done|].
    specialize (Hbound i c Hc). lia.
  - done.
  - intros f c Hf Hc. rewrite Hlen.
    apply rewrite_faces_spec in Hfaces as (rw & Hrw & ->).
    apply list_elem_of_filter in Hf as [_ Hf].
    apply list_elem_of_lookup in Hf as [n Hn].
    destruct (Forall2_lookup_r _ _ _ _ _ Hrw Hn) as (f0 & _ & Hf0).
    apply list_elem_of_lookup in Hc as [m Hm].
    destruct (Forall2_lookup_r _ _ _ _ _ Hf0 Hm) as (i & _ & Hi).
    by eapply Hbound.
  - done.
Qed.

(** C5, as stated, fails: on the chain of six the face [0,1,4] taken through
    the merge map and then through the index table of the keepers is
    [0,1,3], three distinct ids, yet the rebuilt mesh does not hold that
    face: it holds [0,1,2], because the stored table sends vertex 4 to the
    compact id of keeper 2 and not to that of its merge-map keeper 3. *)
Lemma face_rewrite_not_composition :
  ∃ groups mm nv im0 obj' h',
    cluster (H:=ascending_order) (vertices (data overlap6)) 10 = Ok groups ∧
    build_merge_map groups = Ok mm ∧
    build_keepers (vertices (data overlap6)) (map_img mm) = Ok (nv, im0) ∧
    smart_merge_topo (H:=ascending_order) (HN:=suffix_names) overlap6 10 host0
      = (Ok obj', h') ∧
    [0;1;4]%nat ∈ polygons (data overlap6) ∧
    rewrite_via mm im0 [0;1;4]%nat = Some [0;1;3]%nat ∧
    NoDup [0;1;3]%nat ∧
    polygons (data obj') = [[0;1;2]]%nat ∧
    [0;1;3]%nat ∉ polygons (data obj').
Proof.
  eexists _, _, _, _, _, _.
  split; [vm_compute; reflexivity|]. split; [vm_compute; reflexivity|].
  split; [vm_compute; reflexivity|]. split; [vm_compute; reflexivity|].
  split; [set_solver|]. split; [vm_compute; reflexivity|].
  split; [by apply (bool_decide_unpack _)|].
  split; [vm_compute; reflexivity|].
  intros Hin. apply list_elem_of_singleton in Hin. discriminate.
Qed.



Lemma rebuilt_mesh_in_range_witness :
  ∃ obj' h',
    smart_merge_topo (H:=ascending_order) (HN:=suffix_names) quad4 10 host0
      = (Ok obj', h') ∧
    ∃ groups mm d,
      cluster (H:=ascending_order) (vertices (data quad4)) 10 = Ok groups ∧
      build_merge_map groups = Ok mm ∧
      load_merge_data obj' = Some d ∧
      (∀ i, (i < length (vertices (data quad4)))%nat →
            ∃ c, mapping d !! str i = Some c ∧
                 0 ≤ c < Z.of_nat (size (map_img mm : gset nat))) ∧
      length (vertices (data obj')) = size (map_img mm : gset nat) ∧
      (∀ f c, f ∈ polygons (data obj') → c ∈ f →
              (c < length (vertices (data obj')))%nat) ∧
      stdout h' = stdout host0 ++ ["Smart merge successful."%string].
Proof.
  eexists _, _. split; [by vm_compute|].
  eapply (rebuilt_mesh_in_range (H:=ascending_order) (HN:=suffix_names) quad4 10 host0).
  by vm_compute.
Defined.


(** * Merge followed by restore *)

(** C3, as stated, fails: on the two near pairs, merging with threshold 10
    and restoring at once puts vertex 1 on vertex 0; the restored coordinate
    list differs from the original one (the faces are the original faces). *)
Lemma roundtrip_moves_merged_vertex :
  ∃ obj' h' h'' me,
    smart_merge_topo (H:=ascending_order) (HN:=suffix_names) quad4 10 host0 = (Ok obj', h') ∧
    smart_restore_topo (HN:=suffix_names) obj' h' = (Ok tt, h'') ∧
    last (data_meshes h'') = Some me ∧
    vertices me = [(0,0,0); (0,0,0); (100000,0,0); (100000,0,0)] ∧
    vertices me ≠ vertices (data quad4) ∧
    polygons me = polygons (data quad4).
Proof.
  eexists _, _, _, _. split; [by vm_compute|]. split; [by vm_compute|].
  split; [by vm_compute|]. split; [done|]. split; [|done].
  simpl. intros [=].
Qed.

Section roundtrip.
Context `{PySetOrder} `{HN : HostNames}.

(** C3, amended. With a non-negative threshold and faces that name existing
    vertices, merge followed at once by restore completes; the restored mesh
    has the original faces and as many vertices as the original. The restored
    position of every original id [i] is the original coordinate of the
    keeper the stored table resolves [i] to: a keeper reached from [i] along
    the merge map, which is the merge-map keeper of [i] itself whenever that
    keeper is its own keeper. So an id the merge map sends to itself comes
    back at its own coordinate, and a merged vertex comes back at its
    keeper's coordinate. *)
Theorem merge_then_restore obj threshold h :
  0 ≤ threshold →
  faces_valid (length (vertices (data obj))) (polygons (data obj)) →
  ∃ groups mm obj' h' rc,
    cluster (vertices (data obj)) threshold = Ok groups ∧
    build_merge_map groups = Ok mm ∧
    smart_merge_topo obj threshold h = (Ok obj', h') ∧
    smart_restore_topo obj' h' =
      (Ok tt,
       let me := mkMesh (assign_name (mesh_name <$> data_meshes h')
                                     (obj_name obj +:+ "_restored"))
                        rc (polygons (data obj)) in
       let ob := mkObject (assign_name (obj_name <$> data_objects h')
                                       (obj_name obj +:+ "_restored")) me ∅ in
       mkHost (data_meshes h' ++ [me]) (data_objects h' ++ [ob])
              (collection_objects h' ++ [ob])
              (stdout h' ++ ["Smart restore complete."%string])) ∧
    length rc = length (vertices (data obj)) ∧
    ∀ i, (i < length (vertices (data obj)))%nat →
      stored_keeper mm i ∈ (map_img mm : gset nat) ∧
      tc (merge_step mm) i (stored_keeper mm i) ∧
      rc !! i = vertices (data obj) !! stored_keeper mm i ∧
      (∀ k, mm !! str i = Some k → mm !! str k = Some k →
            rc !! i = vertices (data obj) !! k) ∧
      (mm !! str i = Some i → rc !! i = vertices (data obj) !! i).
Proof.
  intros Hr Hfv.
  destruct (smart_merge_topo_total obj threshold h Hr Hfv)
    as (mm & nv & im0 & im & nf & Hmm & Hkeep & Hremap & Hfaces & Hrun).
  destruct (merge_tables_facts _ _ _ _ _ _ _ _ Hmm Hkeep Hremap)
    as (_ & Hlen & _ & _ & _ & _).
  pose proof (stored_table_entries _ _ _ _ _ _ _ _ Hmm Hkeep Hremap) as Hst.
  pose proof (λ k, keeper_set_valid _ _ _ k Hmm) as Hvalid.
  pose proof (rank_size (map_img mm) _ Hvalid) as Hsz.
  set (obj' := merged_object obj nv nf im h).
  set (d := mkMergeData (kmap str (Z.of_nat <$> im)) (vertices (data obj))
                        (polygons (data obj))).
  destruct (smart_restore_topo_valid obj' d (merged_host obj nv nf h))
    as (rc & Hrestore & Hrclen & Hrc).
  { apply load_merged_object. }
  { intros i Hi. simpl in Hi. destruct (Hst i Hi) as (Hk & _ & Hc & _).
    exists (Z.of_nat (rank (map_img mm) (stored_keeper mm i))). simpl.
    rewrite stored_mapping_lookup, Hc. split; [done|].
    rewrite Hlen, <-Hsz.
    pose proof (rank_lt (map_img mm) _ _ (Hvalid _ Hk) Hk). lia. }
  exists (groups_of (vertices (data obj)) threshold), mm, obj',
         (merged_host obj nv nf h), rc.
  split_and!; [by apply cluster_total|done|done|exact Hrestore|done|].
  intros i Hi. destruct (Hst i Hi) as (Hk & Htc & Hc & Hnv).
  assert (rc !! i = vertices (data obj) !! stored_keeper mm i) as Hrci.
  { rewrite (Hrc i (Z.of_nat (rank (map_img mm) (stored_keeper mm i)))).
    - by rewrite Nat2Z.id.
    - done.
    - simpl. by rewrite stored_mapping_lookup, Hc. }
  split_and!; [done..| |].
  - intros k Hik Hkk. by rewrite Hrci, (stored_keeper_fixed _ _ _ Hik Hkk).
  - intros Hown. by rewrite Hrci, (stored_keeper_fixed _ _ _ Hown Hown).
Qed.

End roundtrip.

Lemma merge_then_restore_witness :
  0 ≤ 10 ∧
  faces_valid (length (vertices (data quad4))) (polygons (data quad4)) ∧
  ∃ groups mm obj' h' rc,
    cluster (H:=ascending_order) (vertices (data quad4)) 10 = Ok groups ∧
    build_merge_map groups = Ok mm ∧
    smart_merge_topo (H:=ascending_order) (HN:=suffix_names) quad4 10 host0
      = (Ok obj', h') ∧
    smart_restore_topo (HN:=suffix_names) obj' h' =
      (Ok tt,
       let me := mkMesh (assign_name (HostNames:=suffix_names)
                                     (mesh_name <$> data_meshes h')
                                     (obj_name quad4 +:+ "_restored"))
                        rc (polygons (data quad4)) in
       let ob := mkObject (assign_name (HostNames:=suffix_names)
                                       (obj_name <$> data_objects h')
                                       (obj_name quad4 +:+ "_restored")) me ∅ in
       mkHost (data_meshes h' ++ [me]) (data_objects h' ++ [ob])
              (collection_objects h' ++ [ob])
              (stdout h' ++ ["Smart restore complete."%string])) ∧
    length rc = length (vertices (data quad4)) ∧
    ∀ i, (i < length (vertices (data quad4)))%nat →
      stored_keeper mm i ∈ (map_img mm : gset nat) ∧
      tc (merge_step mm) i (stored_keeper mm i) ∧
      rc !! i = vertices (data quad4) !! stored_keeper mm i ∧
      (∀ k, mm !! str i = Some k → mm !! str k = Some k →
            rc !! i = vertices (data quad4) !! k) ∧
      (mm !! str i = Some i → rc !! i = vertices (data quad4) !! i).
Proof.
  assert (faces_valid (length (vertices (data quad4))) (polygons (data quad4))) as Hfv.
  { intros f i Hf Hi. simpl in *.
    apply list_elem_of_singleton in Hf as ->.
    repeat (apply elem_of_cons in Hi as [->|Hi]; [lia|]). by apply elem_of_nil in Hi. }
  split; [lia|]. split; [exact Hfv|].
  apply (merge_then_restore (H:=ascending_order) (HN:=suffix_names) quad4 10 host0);
    [lia|exact Hfv].
Defined.

(** * Threshold zero *)

(** C7, as stated, fails: with threshold 0 two vertices at the same place
    form one group of two. *)
Lemma zero_threshold_groups_twins :
  ∃ groups,
    cluster (H:=ascending_order) (vertices (data twin2)) 0 = Ok groups ∧
    groups = [[0;1]]%nat ∧
    ¬ all_singletons groups.
Proof.
  exists [[0;1]]%nat. split_and!; [by vm_compute|done|]. intros Hs.
  destruct (Hs [0;1]%nat) as [s Heq]; [set_solver|]. discriminate.
Qed.

(** Below zero the spatial index refuses the first query: the merge stops
    with its [RuntimeError] before anything is created. An object without
    vertices makes no query and is merged whatever the threshold. *)
Example negative_threshold_raises :
  cluster (H:=ascending_order) (vertices (data line3)) (-1) = Raise RuntimeError ∧
  smart_merge_topo (H:=ascending_order) (HN:=suffix_names) line3 (-1) host0
    = (Raise RuntimeError, host0) ∧
  cluster (H:=ascending_order) [] (-1) = Ok [].
Proof. split_and!; by vm_compute. Qed.

Section zero_threshold.
Context `{PySetOrder} `{HN : HostNames}.

Lemma ball_group_zero verts s co :
  NoDup verts → verts !! s = Some co → ball_group verts 0 co = [s].
Proof.
  intros Hnd Hs.
  assert (∀ j, j ∈ ball_group verts 0 co ↔ j = s) as Hel.
  { intros j. rewrite elem_of_ball_group. split.
    - intros (p & Hj & ->%in_range_zero). by eapply NoDup_lookup.
    - intros ->. exists co. split; [done|]. by apply in_range_zero. }
  pose proof (list_of_set_NoDup ((ball (build_tree verts) co 0).*2)) as Hnd'.
  fold (ball_group verts 0 co) in Hnd'.
  destruct (ball_group verts 0 co) as [|a [|b l]].
  - assert (s ∈ ([] : list nat)) as Hin by (by apply Hel). by apply elem_of_nil in Hin.
  - f_equal. apply Hel. by apply elem_of_cons; left.
  - assert (a = s) as -> by (apply Hel; set_solver).
    assert (b = s) as -> by (apply Hel; set_solver).
    apply NoDup_cons in Hnd' as [Hnin _]. destruct Hnin. set_solver.
Qed.

Lemma cluster_state_zero pre suf :
  NoDup (pre ++ suf) →
  cluster_state (pre ++ suf) 0 (enumerate pre) =
    (list_to_set (seq 0 (length pre)), (λ i, [i]) <$> seq 0 (length pre)).
Proof.
  revert suf. induction pre as [|co pre IH] using rev_ind; intros suf Hnd; [done|].
  rewrite <-app_assoc in Hnd |- *. specialize (IH ([co] ++ suf) Hnd).
  unfold cluster_state in *. rewrite enumerate_snoc, foldl_app, IH. simpl.
  rewrite length_app. simpl. rewrite Nat.add_1_r, seq_S, fmap_app. simpl.
  rewrite decide_False.
  2:{ rewrite elem_of_list_to_set, elem_of_seq. lia. }
  fold (ball_group (pre ++ co :: suf) 0 co).
  rewrite (ball_group_zero _ (length pre)); [|done|by rewrite list_lookup_middle].
  simpl. f_equal. rewrite list_to_set_app_L. set_solver.
Qed.

Lemma cluster_zero verts :
  NoDup verts → groups_of verts 0 = (λ i, [i]) <$> seq 0 (length verts).
Proof.
  intros Hnd. pose proof (cluster_state_zero verts []) as Hst.
  rewrite app_nil_r in Hst. unfold groups_of. fold (cluster_state verts 0 (enumerate verts)).
  by rewrite (Hst Hnd).
Qed.

Lemma rank_all (ks : gset nat) n :
  (∀ j, (j < n)%nat → j ∈ ks) → rank ks n = n.
Proof.
  induction n as [|n IH]; intros Hall; [done|].
  rewrite rank_S, decide_True by (apply Hall; lia). f_equal. apply IH.
  intros j Hj. apply Hall. lia.
Qed.

Lemma rewrites_to_id (im : gmap nat nat) f r :
  (∀ i, i ∈ f → im !! i = Some i) → rewrites_to im f r → r = f.
Proof.
  intros Hid Hr. unfold rewrites_to in Hr.
  induction Hr as [|i c f r Hic _ IH]; [done|].
  f_equal.
  - rewrite Hid in Hic by (by apply elem_of_cons; left). congruence.
  - apply IH. intros j Hj. apply Hid. by apply elem_of_cons; right.
Qed.

(** C7, amended. With threshold 0 and pairwise distinct coordinates every
    group is the singleton of its seed, in id order; if moreover every face
    names existing vertices, each once, the merge completes and the rebuilt
    mesh has the original vertices and the original faces. *)
Theorem zero_threshold_identity obj h :
  NoDup (vertices (data obj)) →
  faces_valid (length (vertices (data obj))) (polygons (data obj)) →
  (∀ f, f ∈ polygons (data obj) → NoDup f) →
  cluster (vertices (data obj)) 0
    = Ok ((λ i, [i]) <$> seq 0 (length (vertices (data obj)))) ∧
  ∃ obj' h',
    smart_merge_topo obj 0 h = (Ok obj', h') ∧
    vertices (data obj') = vertices (data obj) ∧
    polygons (data obj') = polygons (data obj).
Proof.
  intros Hnd Hfv Hfnd. pose proof (cluster_zero _ Hnd) as Hcl.
  split; [by rewrite cluster_total, Hcl by lia|].
  destruct (smart_merge_topo_total obj 0 h) as
    (mm & nv & im0 & im & nf & Hmm & Hkeep & Hremap & Hfaces & Hrun); [lia|done|].
  destruct (merge_tables_facts _ _ _ _ _ _ _ _ Hmm Hkeep Hremap)
    as (_ & Hlen & Him0 & Hnv & _ & Hinv).
  pose proof (λ k, keeper_set_valid _ _ _ k Hmm) as Hvalid.
  pose proof (rank_size (map_img mm) _ Hvalid) as Hsz.
  set (n := length (vertices (data obj))) in *.
  assert (∀ i, (i < n)%nat → mm !! str i = Some i) as Hown.
  { intros i Hi.
    destruct (merge_map_entry (vertices (data obj)) 0 mm i)
      as (g & k & Hg & Hk & Hmi); [lia|done|done|]. rewrite Hmi.
    destruct Hg as (gs1 & gs2 & Hgs & Hig & _).
    assert (g ∈ groups_of (vertices (data obj)) 0) as Hgin.
    { rewrite Hgs. apply elem_of_app. right. by apply elem_of_cons; left. }
    rewrite Hcl in Hgin. apply list_elem_of_fmap in Hgin as (s & -> & _).
    apply list_elem_of_singleton in Hig as ->. by simplify_eq/=. }
  assert (∀ i, (i < n)%nat → i ∈ (map_img mm : gset nat)) as Hall.
  { intros i Hi. apply elem_of_map_img. exists (str i). by apply Hown. }
  assert (∀ j, (j ≤ n)%nat → rank (map_img mm) j = j) as Hrank.
  { intros j Hj. apply rank_all. intros i Hi. apply Hall. lia. }
  assert (nv = vertices (data obj)) as ->.
  { apply list_eq. intros j. destruct (decide (j < n)%nat) as [Hj|Hj].
    - rewrite <-(Hrank j) at 1 by lia. apply Hnv. by apply Hall.
    - rewrite !lookup_ge_None_2; [done|fold n; lia|].
      rewrite Hlen, <-Hsz, Hrank by lia. lia. }
  assert (∀ i, (i < n)%nat → im !! i = Some i) as Hid.
  { intros i Hi. rewrite (remap_own _ _ _ _ Hinv i Hi (Hown i Hi)).
    rewrite Him0, decide_True by (by apply Hall). f_equal. apply Hrank. lia. }
  assert (nf = polygons (data obj)) as ->.
  { apply rewrite_faces_spec in Hfaces as (rw & Hrw & ->).
    assert (rw = polygons (data obj)) as ->.
    { clear -Hrw Hid Hfv. unfold faces_valid in Hfv.
      induction Hrw as [|f r fs rs Hfr _ IH]; [done|]. f_equal.
      - eapply rewrites_to_id; [|done]. intros i Hi. apply Hid.
        eapply Hfv; [|done]. by apply elem_of_cons; left.
      - apply IH. intros f' i Hf' Hi. eapply Hfv; [|done].
        by apply elem_of_cons; right. }
    clear -Hfnd. induction (polygons (data obj)) as [|f fs IH]; [done|].
    rewrite filter_cons_True by (apply Hfnd; by apply elem_of_cons; left).
    f_equal. apply IH. intros f' Hf'. apply Hfnd. by apply elem_of_cons; right. }
  eexists _, _. split; [exact Hrun|]. done.
Qed.

End zero_threshold.

Lemma zero_threshold_identity_witness :
  NoDup (vertices (data line3)) ∧
  faces_valid (length (vertices (data line3))) (polygons (data line3)) ∧
  (∀ f, f ∈ polygons (data line3) → NoDup f) ∧
  cluster (H:=ascending_order) (vertices (data line3)) 0
    = Ok ((λ i, [i]) <$> seq 0 (length (vertices (data line3)))) ∧
  ∃ obj' h',
    smart_merge_topo (H:=ascending_order) (HN:=suffix_names) line3 0 host0 = (Ok obj', h') ∧
    vertices (data obj') = vertices (data line3) ∧
    polygons (data obj') = polygons (data line3).
Proof.
  assert (NoDup (vertices (data line3))) as Hnd by (by apply (bool_decide_unpack _)).
  assert (faces_valid (length (vertices (data line3))) (polygons (data line3))) as Hfv.
  { intros f i Hf Hi. simpl in *.
    apply list_elem_of_singleton in Hf as ->.
    repeat (apply elem_of_cons in Hi as [->|Hi]; [lia|]). by apply elem_of_nil in Hi. }
  assert (∀ f, f ∈ polygons (data line3) → NoDup f) as Hfnd.
  { intros f Hf. simpl in Hf. apply list_elem_of_singleton in Hf as ->.
    by apply (bool_decide_unpack _). }
  split; [exact Hnd|]. split; [exact Hfv|]. split; [exact Hfnd|].
  apply (zero_threshold_identity (H:=ascending_order) (HN:=suffix_names) line3 host0 Hnd Hfv Hfnd).
Defined.

(** * Further properties of restore *)

(** The restore loop, whatever the record: when it ends normally it has
    produced one position per stored coordinate, each the one Python indexing
    selects. *)
Lemma restore_loop_inv mapping current n rc :
  for_res (restore_step mapping current) [] (seq 0 n) = Ok rc →
  length rc = n ∧
  ∀ i, (i < n)%nat →
    ∃ c p, mapping !! str i = Some c ∧ py_index current c = Ok p ∧ rc !! i = Some p.
Proof.
  revert rc. induction n as [|n IH]; intros rc Hrun.
  - simpl in Hrun. simplify_eq. split; [done|]. intros; lia.
  - rewrite seq_S, for_res_snoc in Hrun.
    destruct (for_res _ [] (seq 0 n)) as [rc0|e] eqn:Hrun0; [|done].
    destruct (IH rc0 eq_refl) as [Hlen Hrc]. simpl in Hrun.
    unfold restore_step in Hrun.
    destruct (mapping !! str n) as [c|] eqn:Hc; [|done].
    destruct (py_index current c) as [p|e] eqn:Hp; [|done].
    simpl in Hrun. simplify_eq. split.
    + rewrite length_app. simpl. lia.
    + intros i Hi. destruct (decide (i = length rc0)) as [->|Hne].
      * exists c, p. split_and!; [done..|].
        by rewrite lookup_app_r, Nat.sub_diag by lia.
      * destruct (Hrc i) as (c' & p' & ? & ? & ?); [lia|].
        exists c', p'. split_and!; [done..|].
        rewrite lookup_app_l by lia. done.
Qed.

Lemma py_index_Ok {A} (l : list A) (c : Z) (a : A) :
  py_index l c = Ok a ↔
  - Z.of_nat (length l) ≤ c < Z.of_nat (length l) ∧
  l !! py_position (Z.of_nat (length l)) c = Some a.
Proof.
  unfold py_index, py_position.
  set (n := Z.of_nat (length l)). set (k := if c <? 0 then c + n else c).
  assert (k = if c <? 0 then c + n else c) as Hk by done.
  destruct (Z.ltb_spec c 0) as [Hneg|Hpos];
    destruct (Z.leb_spec 0 k) as [Hk0|Hk0];
    destruct (Z.ltb_spec k n) as [Hkn|Hkn]; simpl.
  all: try (split; [done|intros [??]; lia]).
  all: destruct (l !! Z.to_nat k) as [a'|] eqn:Hl.
  all: try (split; [intros [= ->]; split; [lia|done]|intros [_ ?]; congruence]).
  all: split; [done|intros [_ ?]; congruence].
Qed.

(** The two ways a restore on a recorded object can go, by the outcome of
    its loop. *)
Lemma smart_restore_topo_cases `{HN : HostNames} obj d h :
  load_merge_data obj = Some d →
  (∃ rc, for_res (restore_step (mapping d) (vertices (data obj))) []
                 (seq 0 (length (original_coords d))) = Ok rc ∧
         smart_restore_topo obj h = (Ok tt, restored_host obj rc d h)) ∨
  (∃ e, for_res (restore_step (mapping d) (vertices (data obj))) []
                (seq 0 (length (original_coords d))) = Raise e ∧
        smart_restore_topo obj h = (Raise e, h)).
Proof.
  intros Hd.
  destruct (for_res (restore_step (mapping d) (vertices (data obj))) []
              (seq 0 (length (original_coords d)))) as [rc|e] eqn:Hrun.
  - left. exists rc. split; [done|]. by apply smart_restore_topo_run.
  - right. exists e. split; [done|]. by apply smart_restore_topo_raise with d.
Qed.

(** X2. Restore on an object that has a record is all or nothing: either it
    ends normally, having added exactly one mesh (one vertex per stored
    coordinate, the stored faces), one object holding it and one link, or it
    raises and the host is exactly as before. No mesh is ever left without
    its object. *)
Theorem restore_all_or_nothing `{HN : HostNames} obj d h :
  load_merge_data obj = Some d →
  (∃ rc, smart_restore_topo obj h = (Ok tt, restored_host obj rc d h) ∧
         length rc = length (original_coords d)) ∨
  (∃ e, smart_restore_topo obj h = (Raise e, h)).
Proof.
  intros Hd.
  destruct (smart_restore_topo_cases obj d h Hd) as [(rc & Hloop & Hrun)|(e & _ & Hrun)].
  - left. exists rc. split; [done|].
    by apply restore_loop_inv in Hloop as [? _].
  - right. by exists e.
Qed.

Lemma restore_all_or_nothing_witness :
  load_merge_data long_record = Some long_data ∧
  ((∃ rc, smart_restore_topo (HN:=suffix_names) long_record host0
            = (Ok tt, restored_host (HN:=suffix_names) long_record rc long_data host0) ∧
          length rc = length (original_coords long_data)) ∨
   (∃ e, smart_restore_topo (HN:=suffix_names) long_record host0 = (Raise e, host0))).
Proof.
  split; [by vm_compute|].
  apply (restore_all_or_nothing (HN:=suffix_names) long_record long_data host0). by vm_compute.
Defined.

(** X3. Restore reads the stored compact ids with Python indexing: an entry
    [c] with [-len <= c < 0] is accepted and selects the current vertex
    [len + c]. When every stored entry lies in [-len, len) restore ends
    normally and vertex [i] is the current vertex at that position. *)
Theorem restore_accepts_negative_entries `{HN : HostNames} obj d h :
  load_merge_data obj = Some d →
  (∀ i, (i < length (original_coords d))%nat →
        ∃ c, mapping d !! str i = Some c ∧
             - Z.of_nat (length (vertices (data obj))) ≤ c
               < Z.of_nat (length (vertices (data obj)))) →
  ∃ rc,
    smart_restore_topo obj h = (Ok tt, restored_host obj rc d h) ∧
    length rc = length (original_coords d) ∧
    ∀ i c, (i < length (original_coords d))%nat → mapping d !! str i = Some c →
           rc !! i = vertices (data obj)
                       !! py_position (Z.of_nat (length (vertices (data obj)))) c.
Proof.
  intros Hd Hvalid.
  destruct (smart_restore_topo_cases obj d h Hd)
    as [(rc & Hloop & Hrun)|(e & Hloop & _)].
  - exists rc. apply restore_loop_inv in Hloop as [Hlen Hloop].
    split_and!; [done..|]. intros i c Hi Hc.
    destruct (Hloop i Hi) as (c' & p & Hc' & Hp & ->). simplify_eq.
    apply py_index_Ok in Hp as [_ Hp]. done.
  - exfalso.
    destruct (restore_loop_ok (mapping d) (vertices (data obj))
                (length (original_coords d))) as (rc & Hok & _).
    { intros i Hi. destruct (Hvalid i Hi) as (c & Hc & Hrange).
      destruct (lookup_lt_is_Some_2 (vertices (data obj))
                  (py_position (Z.of_nat (length (vertices (data obj)))) c))
        as [p Hp].
      { unfold py_position. destruct (Z.ltb_spec c 0); lia. }
      exists c, p. split; [done|]. apply py_index_Ok. done. }
    congruence.
Qed.

Lemma restore_accepts_negative_entries_witness :
  load_merge_data back_record = Some back_data ∧
  (∀ i, (i < length (original_coords back_data))%nat →
        ∃ c, mapping back_data !! str i = Some c ∧
             - Z.of_nat (length (vertices (data back_record))) ≤ c
               < Z.of_nat (length (vertices (data back_record)))) ∧
  ∃ rc,
    smart_restore_topo (HN:=suffix_names) back_record host0
      = (Ok tt, restored_host (HN:=suffix_names) back_record rc back_data host0) ∧
    length rc = length (original_coords back_data) ∧
    ∀ i c, (i < length (original_coords back_data))%nat →
           mapping back_data !! str i = Some c →
           rc !! i = vertices (data back_record)
                       !! py_position (Z.of_nat (length (vertices (data back_record)))) c.
Proof.
  assert (load_merge_data back_record = Some back_data) as Hd by (by vm_compute).
  assert (∀ i, (i < length (original_coords back_data))%nat →
            ∃ c, mapping back_data !! str i = Some c ∧
                 - Z.of_nat (length (vertices (data back_record))) ≤ c
                   < Z.of_nat (length (vertices (data back_record)))) as Hv.
  { intros i Hi. simpl in Hi. assert (i = 0%nat) as -> by lia.
    exists (-1). split; [by vm_compute|simpl; lia]. }
  split; [exact Hd|]. split; [exact Hv|].
  apply (restore_accepts_negative_entries (HN:=suffix_names) back_record back_data host0 Hd Hv).
Defined.

(** X4. Restore only reads its source, so it can be run again: after a
    completed restore a second restore of the same object completes too. The
    two runs add two meshes and two objects, linked in that order, with the
    same coordinates and the same faces; the host gives the second mesh and
    the second object names that differ from the first ones and from every
    name that was in use before; neither new object carries a record. *)
Theorem restore_twice_distinct_names `{HN : HostNames} obj d h h1 :
  load_merge_data obj = Some d →
  smart_restore_topo obj h = (Ok tt, h1) →
  ∃ h2 ob1 ob2,
    smart_restore_topo obj h1 = (Ok tt, h2) ∧
    data_meshes h2 = data_meshes h ++ [data ob1; data ob2] ∧
    data_objects h2 = data_objects h ++ [ob1; ob2] ∧
    collection_objects h2 = collection_objects h ++ [ob1; ob2] ∧
    vertices (data ob2) = vertices (data ob1) ∧
    polygons (data ob1) = original_faces d ∧
    polygons (data ob2) = original_faces d ∧
    obj_name ob2 ≠ obj_name ob1 ∧
    mesh_name (data ob2) ≠ mesh_name (data ob1) ∧
    (obj_name ob1 ∉ obj_name <$> data_objects h) ∧
    (obj_name ob2 ∉ obj_name <$> data_objects h) ∧
    (mesh_name (data ob1) ∉ mesh_name <$> data_meshes h) ∧
    (mesh_name (data ob2) ∉ mesh_name <$> data_meshes h) ∧
    load_merge_data ob1 = None ∧ load_merge_data ob2 = None.
Proof.
  intros Hd Hrun.
  destruct (smart_restore_topo_cases obj d h Hd)
    as [(rc & Hloop & Hrun')|(e & _ & Hrun')]; rewrite Hrun' in Hrun; [|done].
  injection Hrun as <-.
  set (h1 := restored_host obj rc d h).
  pose proof (assign_name_fresh (obj_name <$> data_objects h)
                (obj_name obj +:+ "_restored")) as Ho1.
  pose proof (assign_name_fresh (obj_name <$> data_objects h1)
                (obj_name obj +:+ "_restored")) as Ho2.
  pose proof (assign_name_fresh (mesh_name <$> data_meshes h)
                (obj_name obj +:+ "_restored")) as Hm1.
  pose proof (assign_name_fresh (mesh_name <$> data_meshes h1)
                (obj_name obj +:+ "_restored")) as Hm2.
  set (on2 := assign_name (obj_name <$> data_objects h1) _) in Ho2.
  set (mn2 := assign_name (mesh_name <$> data_meshes h1) _) in Hm2.
  unfold h1, restored_host in Ho2, Hm2. simpl in Ho2, Hm2.
  rewrite fmap_app, elem_of_app, list_fmap_singleton, list_elem_of_singleton in Ho2.
  rewrite fmap_app, elem_of_app, list_fmap_singleton, list_elem_of_singleton in Hm2.
  exists (restored_host obj rc d h1), (restored_object obj rc d h),
         (restored_object obj rc d h1).
  split_and!; simpl; try done.
  - by apply smart_restore_topo_run.
  - by rewrite <-app_assoc.
  - by rewrite <-app_assoc.
  - by rewrite <-app_assoc.
  - intros Heq. apply Ho2. by right.
  - intros Heq. apply Hm2. by right.
  - intros Hin. apply Ho2. by left.
  - intros Hin. apply Hm2. by left.
Qed.

Lemma restore_twice_distinct_names_witness :
  load_merge_data long_record = Some long_data ∧
  ∃ h1,
    smart_restore_topo (HN:=suffix_names) long_record host0 = (Ok tt, h1) ∧
    ∃ h2 ob1 ob2,
      smart_restore_topo (HN:=suffix_names) long_record h1 = (Ok tt, h2) ∧
      data_meshes h2 = data_meshes host0 ++ [data ob1; data ob2] ∧
      data_objects h2 = data_objects host0 ++ [ob1; ob2] ∧
      collection_objects h2 = collection_objects host0 ++ [ob1; ob2] ∧
      vertices (data ob2) = vertices (data ob1) ∧
      polygons (data ob1) = original_faces long_data ∧
      polygons (data ob2) = original_faces long_data ∧
      obj_name ob2 ≠ obj_name ob1 ∧
      mesh_name (data ob2) ≠ mesh_name (data ob1) ∧
      (obj_name ob1 ∉ obj_name <$> data_objects host0) ∧
      (obj_name ob2 ∉ obj_name <$> data_objects host0) ∧
      (mesh_name (data ob1) ∉ mesh_name <$> data_meshes host0) ∧
      (mesh_name (data ob2) ∉ mesh_name <$> data_meshes host0) ∧
      load_merge_data ob1 = None ∧ load_merge_data ob2 = None.
Proof.
  split; [by vm_compute|]. eexists. split; [by vm_compute|].
  eapply (restore_twice_distinct_names (HN:=suffix_names) long_record long_data host0);
    by vm_compute.
Defined.

(** Under the suffix naming the second restore of the one-vertex object is
    named with the suffix [.001]. *)
Example second_restore_is_renamed :
  ∃ h1 h2,
    smart_restore_topo (HN:=suffix_names) long_record host0 = (Ok tt, h1) ∧
    smart_restore_topo (HN:=suffix_names) long_record h1 = (Ok tt, h2) ∧
    obj_name <$> data_objects h2 = ["Long_restored"; "Long_restored.001"]%string ∧
    mesh_name <$> data_meshes h2 = ["Long_restored"; "Long_restored.001"]%string.
Proof.
  eexists _, _. split; [vm_compute; reflexivity|].
  split; [vm_compute; reflexivity|]. split; vm_compute; reflexivity.
Qed.

(** * Further properties of the merge *)

Section merge_extras.
Context `{PySetOrder} `{HN : HostNames}.

(** Where the host stands after a merge, whatever its outcome. *)
Lemma smart_merge_topo_host obj threshold h r h' :
  smart_merge_topo obj threshold h = (r, h') →
  match r with
  | Ok obj' => ∃ nv nf, h' = merged_host obj nv nf h
  | Raise _ => h' = h
  end.
Proof.
  unfold smart_merge_topo, mbind, M_bind, m_lift, mret, M_ret.
  destruct (cluster _ _) as [groups|e] eqn:Hcl; [|by intros [= <- <-]].
  apply cluster_Ok in Hcl as ->.
  destruct (build_merge_map _) as [mm|e] eqn:Hmm; [|by intros [= <- <-]].
  destruct (build_keepers _ _) as [[nv im0]|e] eqn:Hkeep; [|by intros [= <- <-]].
  assert (∀ key m, mm !! key = Some m → is_Some (im0 !! m)) as Hdom.
  { intros key m Hm.
    destruct (build_keepers_spec (vertices (data obj)) (map_img mm))
      as (nv' & im0' & Hk' & _ & Him0 & _).
    rewrite Hkeep in Hk'. simplify_eq.
    assert (m ∈ (map_img mm : gset nat)) as Hin by (apply elem_of_map_img; eauto).
    rewrite Him0, decide_True; [eauto|]. split; [|done].
    by eapply keeper_set_valid. }
  pose proof (remap_prefix mm im0 (length (vertices (data obj))) h Hdom) as Hpre.
  unfold remap_all.
  destruct (for_M (remap_step mm) im0 _ h) as [[im|e] h1].
  2:{ destruct Hpre as (-> & _). by intros [= <- <-]. }
  destruct Hpre as (-> & _).
  destruct (rewrite_faces _ _) as [nf|e]; [|by intros [= <- <-]].
  simpl. intros [= <- <-]. by exists nv, nf.
Qed.

(** X5. A merge that raises has created nothing and printed nothing: the
    host is exactly as before. And it raises only on a negative threshold or
    on a face that names a vertex the mesh does not have. *)
Theorem merge_failure_leaves_host obj threshold h e h' :
  smart_merge_topo obj threshold h = (Raise e, h') →
  h' = h ∧
  ¬ (0 ≤ threshold ∧
     faces_valid (length (vertices (data obj))) (polygons (data obj))).
Proof.
  intros Hrun. split.
  - by apply smart_merge_topo_host in Hrun.
  - intros [Hr Hfv].
    destruct (smart_merge_topo_total obj threshold h Hr Hfv)
      as (mm & nv & im0 & im & nf & _ & _ & _ & _ & Hok).
    congruence.
Qed.


Lemma build_keepers_sublist coords ks n nv im :
  (n ≤ length coords)%nat →
  for_res (keep_step coords ks) ([], ∅) (seq 0 n) = Ok (nv, im) →
  nv `sublist_of` take n coords.
Proof.
  revert nv im. induction n as [|n IH]; intros nv im Hn Hrun.
  - simpl in Hrun. by simplify_eq.
  - rewrite seq_S, for_res_snoc in Hrun.
    destruct (for_res _ _ (seq 0 n)) as [[nv0 im1]|e] eqn:Hrun0; [|done].
    specialize (IH nv0 im1 ltac:(lia) eq_refl).
    destruct (lookup_lt_is_Some_2 coords n) as [c Hc]; [lia|].
    rewrite (take_S_r _ _ _ Hc). simpl in Hrun.
    destruct (decide (n ∈ ks)).
    + rewrite Hc in Hrun. simplify_eq. by apply sublist_app.
    + simplify_eq. by apply sublist_inserts_r.
Qed.

(** X7. A completed merge never grows the mesh and never invents geometry:
    the rebuilt vertex list is a subsequence of the original one (so the
    keepers keep their coordinates and their relative order), it is not empty
    when the original was not, there are no more faces than before, and every
    rebuilt face has as many corners as an original face. *)
Theorem rebuilt_mesh_never_grows obj threshold h obj' h' :
  smart_merge_topo obj threshold h = (Ok obj', h') →
  vertices (data obj') `sublist_of` vertices (data obj) ∧
  (vertices (data obj) ≠ [] → vertices (data obj') ≠ []) ∧
  (length (polygons (data obj')) ≤ length (polygons (data obj)))%nat ∧
  ∀ r, r ∈ polygons (data obj') →
       ∃ f, f ∈ polygons (data obj) ∧ length r = length f.
Proof.
  intros Hrun.
  destruct (smart_merge_topo_inv _ _ _ _ _ Hrun)
    as (mm & nv & im0 & im & nf & Hmm & Hkeep & Hremap & Hfaces & -> & ->).
  destruct (merge_tables_facts _ _ _ _ _ _ _ _ Hmm Hkeep Hremap)
    as (_ & Hlen & _ & _ & Hall & _).
  pose proof (λ k, keeper_set_valid _ _ _ k Hmm) as Hvalid.
  pose proof (rank_size (map_img mm) _ Hvalid) as Hsz.
  apply rewrite_faces_spec in Hfaces as (rw & Hrw & ->). simpl.
  split_and!.
  - unfold build_keepers in Hkeep.
    apply build_keepers_sublist in Hkeep; [|done].
    by rewrite firstn_all in Hkeep.
  - intros Hne Hnil.
    destruct (vertices (data obj)) as [|p verts] eqn:Hv; [done|].
    destruct (Hall 0%nat) as [k Hk]; [simpl; lia|].
    assert (k ∈ (map_img mm : gset nat)) as Hin by (apply elem_of_map_img; eauto).
    pose proof (rank_lt (map_img mm) k _ (Hvalid k Hin) Hin) as Hlt.
    rewrite Hnil in Hlen. simpl in Hlen. lia.
  - etrans; [apply length_filter|]. by rewrite (Forall2_length _ _ _ Hrw).
  - intros r [_ Hr]%list_elem_of_filter.
    apply list_elem_of_lookup in Hr as [n Hn].
    destruct (Forall2_lookup_r _ _ _ _ _ Hrw Hn) as (f & Hf & Hfr).
    exists f. split; [by eapply list_elem_of_lookup_2|].
    symmetry. by eapply Forall2_length.
Qed.

End merge_extras.

Lemma merge_failure_leaves_host_witness :
  smart_merge_topo (H:=ascending_order) (HN:=suffix_names) line3 (-1) host0
    = (Raise RuntimeError, host0) ∧
  host0 = host0 ∧
  ¬ (0 ≤ -1 ∧
     faces_valid (length (vertices (data line3))) (polygons (data line3))).
Proof.
  split; [by vm_compute|].
  apply (merge_failure_leaves_host (H:=ascending_order) (HN:=suffix_names) line3 (-1) host0 RuntimeError).
  by vm_compute.
Defined.


Lemma rebuilt_mesh_never_grows_witness :
  ∃ obj' h',
    smart_merge_topo (H:=ascending_order) (HN:=suffix_names) quad4 10 host0 = (Ok obj', h') ∧
    vertices (data obj') `sublist_of` vertices (data quad4) ∧
    (vertices (data quad4) ≠ [] → vertices (data obj') ≠ []) ∧
    (length (polygons (data obj')) ≤ length (polygons (data quad4)))%nat ∧
    ∀ r, r ∈ polygons (data obj') →
         ∃ f, f ∈ polygons (data quad4) ∧ length r = length f.
Proof.
  eexists _, _. split; [by vm_compute|].
  eapply (rebuilt_mesh_never_grows (H:=ascending_order) (HN:=suffix_names) quad4 10 host0).
  by vm_compute.
Defined.

(** * Further properties of the clustering and of the merge map *)

Section cluster_extras.
Context `{PySetOrder}.

(** The seeds of the groups formed from the ids below [length pre]. *)
Lemma cluster_prefix_seeds verts threshold pre suf :
  verts = pre ++ suf →
  ∃ seeds,
    Forall (λ s, (s < length pre)%nat) seeds ∧
    StronglySorted lt seeds ∧
    Forall2 (λ s g, ∃ co, verts !! s = Some co ∧ g = ball_group verts threshold co)
            seeds (cluster_state verts threshold (enumerate pre)).2 ∧
    (∀ i j s g, i ≠ j → seeds !! j = Some s →
                (cluster_state verts threshold (enumerate pre)).2 !! i = Some g →
                s ∉ g) ∧
    ((0 < length pre)%nat → seeds !! 0%nat = Some 0%nat).
Proof.
  revert suf. induction pre as [|co pre IH] using rev_ind; intros suf Hv.
  - exists []. split_and!; [constructor|constructor|constructor| |simpl; lia].
    intros i j s g _ Hs. done.
  - rewrite <-app_assoc in Hv.
    destruct (IH ([co] ++ suf) Hv) as (seeds & Hlt & Hsorted & Hballs & Hcross & Hfirst).
    destruct (cluster_prefix_inv verts threshold pre ([co] ++ suf) Hv)
      as [Hvis _ _ _].
    assert (verts !! length pre = Some co) as Hco.
    { rewrite Hv. by apply list_lookup_middle. }
    unfold cluster_state in *. rewrite enumerate_snoc, foldl_app. simpl.
    destruct (foldl _ _ (enumerate pre)) as [visited groups] eqn:Est. simpl in *.
    rewrite length_app. simpl.
    replace (length pre + 1)%nat with (S (length pre)) by lia.
    unfold group_step. destruct (decide (length pre ∈ visited)) as [Hin|Hnin].
    + exists seeds. simpl. split_and!; [|done|done|done|].
      * eapply Forall_impl; [done|]. simpl. intros; lia.
      * intros _. destruct pre as [|p pre]; [|apply Hfirst; simpl; lia].
        simpl in Est. simplify_eq. set_solver.
    + fold (ball_group verts threshold co). simpl.
      pose proof (Forall2_length _ _ _ Hballs) as Hlen.
      exists (seeds ++ [length pre]). split_and!.
      * apply Forall_app. split.
        -- eapply Forall_impl; [done|]. simpl. intros; lia.
        -- repeat constructor.
      * apply StronglySorted_app_2; [|done|repeat constructor].
        intros s1 s2 Hs1 ->%list_elem_of_singleton.
        rewrite Forall_forall in Hlt. by apply Hlt.
      * apply Forall2_app; [done|]. repeat constructor. by exists co.
      * intros i j s g Hij Hs Hg.
        destruct (decide (j < length seeds)%nat) as [Hj|Hj];
          destruct (decide (i < length groups)%nat) as [Hi|Hi].
        -- rewrite lookup_app_l in Hs by done. rewrite lookup_app_l in Hg by done.
           by eapply Hcross.
        -- rewrite lookup_app_l in Hs by done.
           rewrite lookup_app_r in Hg by lia.
           destruct (i - length groups)%nat eqn:Hd; [|by destruct n]. simplify_eq/=.
           destruct (Forall2_lookup_l _ _ _ _ _ Hballs Hs) as (gs & Hgs & cs & Hcs & ->).
           intros (p & Hp & Hrange)%elem_of_ball_group. simplify_eq.
           apply Hnin, Hvis. eexists. split; [by eapply list_elem_of_lookup_2|].
           apply elem_of_ball_group. exists co. split; [done|].
           by rewrite in_range_sym.
        -- rewrite lookup_app_r in Hs by lia. rewrite lookup_app_l in Hg by done.
           destruct (j - length seeds)%nat eqn:Hd; [|by destruct n]. simplify_eq/=.
           intros Hin. apply Hnin, Hvis. exists g.
           split; [by eapply list_elem_of_lookup_2|done].
        -- apply lookup_lt_Some in Hs. apply lookup_lt_Some in Hg.
           rewrite length_app in Hs, Hg. simpl in *. lia.
      * intros _. destruct pre as [|p pre].
        -- destruct seeds as [|s0 seeds]; [done|].
           apply Forall_cons in Hlt as [Hs0 _]. simpl in Hs0. lia.
        -- specialize (Hfirst ltac:(simpl; lia)).
           rewrite lookup_app_l by (by eapply lookup_lt_Some). done.
Qed.

(** X8. With a non-negative threshold the groups are the closed balls of an
    increasing sequence of seed ids, one group per seed and in that order: a
    group lists exactly the ids whose position lies within the threshold of
    its seed's position, the seed included, and no seed is listed by any
    other group. Vertex 0 is the first seed. *)
Theorem groups_are_balls_of_seeds verts threshold :
  0 ≤ threshold →
  ∃ groups seeds,
    cluster verts threshold = Ok groups ∧
    StronglySorted lt seeds ∧
    Forall2 (λ s g, ∃ co, verts !! s = Some co ∧ s ∈ g ∧
               ∀ j, j ∈ g ↔
                    ∃ p, verts !! j = Some p ∧ dist_sq co p ≤ threshold * threshold)
            seeds groups ∧
    (∀ i j s g, i ≠ j → seeds !! j = Some s → groups !! i = Some g → s ∉ g) ∧
    (verts ≠ [] → seeds !! 0%nat = Some 0%nat).
Proof.
  intros Hr.
  destruct (cluster_prefix_seeds verts threshold verts []) as
    (seeds & _ & Hsorted & Hballs & Hcross & Hfirst); [by rewrite app_nil_r|].
  exists (groups_of verts threshold), seeds.
  split_and!; [by apply cluster_total|done| |done|].
  - eapply Forall2_impl; [exact Hballs|].
    intros s g (co & Hs & ->). exists co.
    assert (∀ j, j ∈ ball_group verts threshold co ↔
                 ∃ p, verts !! j = Some p ∧ dist_sq co p ≤ threshold * threshold)
      as Hball.
    { intros j. rewrite elem_of_ball_group. unfold in_range.
      split; intros (p & Hp & Hin); exists p; (split; [done|]);
        by apply Z.leb_le. }
    split_and!; [done| |done].
    apply Hball. exists co. split; [done|]. rewrite dist_sq_refl. nia.
  - intros Hne. apply Hfirst. destruct verts; [done|simpl; lia].
Qed.

Lemma dist_sq_twice c p q :
  dist_sq p q ≤ 2 * dist_sq c p + 2 * dist_sq c q.
Proof.
  destruct c as [[x0 y0] z0], p as [[x1 y1] z1], q as [[x2 y2] z2].
  unfold dist_sq.
  pose proof (Z.square_nonneg ((x0 - x1) + (x0 - x2))).
  pose proof (Z.square_nonneg ((y0 - y1) + (y0 - y2))).
  pose proof (Z.square_nonneg ((z0 - z1) + (z0 - z2))).
  lia.
Qed.

(** An entry of the merge map comes from the last group that lists its id. *)
Lemma merge_map_entry_inv groups mm i k :
  for_res merge_group ∅ groups = Ok mm →
  mm !! str i = Some k →
  ∃ g, last_group_with i groups g ∧ head g = Some k.
Proof.
  intros Hrun Hk.
  destruct (decide (Exists (λ g, i ∈ g) groups)) as [Hex|Hnone].
  - apply Exists_exists in Hex.
    destruct (last_group_with_exists i groups Hex) as [g Hg].
    destruct (merge_map_last_group _ _ _ _ _ Hrun Hg) as (k' & Hk' & Hmk).
    exists g. split; [done|]. congruence.
  - rewrite Exists_exists in Hnone.
    rewrite (merge_map_untouched _ _ _ _ Hrun) in Hk by naive_solver.
    by rewrite lookup_empty in Hk.
Qed.

(** X9. The merge map never sends a vertex farther than twice the threshold:
    a vertex and its merge-map keeper both lie within the threshold of the
    seed of one group, so their squared distance is at most four times the
    squared threshold. *)
Theorem keeper_within_twice_threshold verts threshold groups mm i k p q :
  cluster verts threshold = Ok groups →
  build_merge_map groups = Ok mm →
  mm !! str i = Some k →
  verts !! i = Some p → verts !! k = Some q →
  dist_sq p q ≤ 4 * (threshold * threshold).
Proof.
  intros Hcl Hmm Hk Hp Hq. apply cluster_Ok in Hcl as ->.
  destruct (merge_map_entry_inv _ _ _ _ Hmm Hk) as (g & (gs1 & gs2 & Hgs & Hi & _) & Hh).
  assert (g ∈ groups_of verts threshold) as Hg.
  { rewrite Hgs. apply elem_of_app. right. by apply elem_of_cons; left. }
  assert (k ∈ g) as Hkg.
  { destruct g; simplify_eq/=. by apply elem_of_cons; left. }
  apply cluster_group_ball in Hg as (s & co & _ & ->).
  apply elem_of_ball_group in Hi as (p' & Hp' & Hin1).
  apply elem_of_ball_group in Hkg as (q' & Hq' & Hin2). simplify_eq.
  unfold in_range in *.
  apply Z.leb_le in Hin1, Hin2.
  pose proof (dist_sq_twice co p q). lia.
Qed.

End cluster_extras.

Lemma groups_are_balls_of_seeds_witness :
  0 ≤ 10 ∧
  ∃ groups seeds,
    cluster (H:=ascending_order) (vertices (data line3)) 10 = Ok groups ∧
    StronglySorted lt seeds ∧
    Forall2 (λ s g, ∃ co, vertices (data line3) !! s = Some co ∧ s ∈ g ∧
               ∀ j, j ∈ g ↔
                    ∃ p, vertices (data line3) !! j = Some p ∧ dist_sq co p ≤ 10 * 10)
            seeds groups ∧
    (∀ i j s g, i ≠ j → seeds !! j = Some s → groups !! i = Some g → s ∉ g) ∧
    (vertices (data line3) ≠ [] → seeds !! 0%nat = Some 0%nat).
Proof.
  split; [lia|].
  apply (groups_are_balls_of_seeds (H:=ascending_order) (vertices (data line3)) 10).
  lia.
Defined.

Lemma keeper_within_twice_threshold_witness :
  ∃ groups mm,
    cluster (H:=ascending_order) (vertices (data line3)) 10 = Ok groups ∧
    build_merge_map groups = Ok mm ∧
    mm !! str 2 = Some 1%nat ∧
    vertices (data line3) !! 2%nat = Some (12, 0, 0) ∧
    vertices (data line3) !! 1%nat = Some (6, 0, 0) ∧
    dist_sq (12, 0, 0) (6, 0, 0) ≤ 4 * (10 * 10).
Proof.
  eexists _, _. split; [vm_compute; reflexivity|].
  split; [vm_compute; reflexivity|]. split; [by vm_compute|].
  split; [done|]. split; [done|].
  eapply (keeper_within_twice_threshold (H:=ascending_order)
            (vertices (data line3)) 10 _ _ 2%nat 1%nat); by vm_compute.
Defined.

(** * Further properties of the stored table *)

(** The second loop gives id [j] the compact id of a keeper reached from [j]
    by one or more steps along the merge map. *)
Lemma remap_chain merge_map im0 n h im h' :
  (∀ key m, merge_map !! key = Some m → is_Some (im0 !! m)) →
  for_M (remap_step merge_map) im0 (seq 0 n) h = (Ok im, h') →
  ∀ j, (j < n)%nat →
    ∃ m, tc (merge_step merge_map) j m ∧ im !! j = im0 !! m ∧ is_Some (im0 !! m).
Proof.
  intros Hdom. revert im h'. induction n as [|n IH]; intros im h' Hrun j Hj; [lia|].
  rewrite seq_S, for_M_snoc in Hrun.
  pose proof (remap_prefix merge_map im0 n h Hdom) as Hpre.
  destruct (for_M (remap_step merge_map) im0 (seq 0 n) h) as [[im1|e] h1]; [|done].
  destruct Hpre as (-> & _ & [Hlater _ Hdone _ _]).
  specialize (IH im1 h eq_refl). simpl in Hrun. unfold remap_step in Hrun.
  destruct (merge_map !! str n) as [m|] eqn:Hm; [|done].
  assert (is_Some (im1 !! m)) as [c Hc].
  { destruct (decide (m < n)%nat); [by apply Hdone|].
    rewrite Hlater by lia. by eapply Hdom. }
  rewrite Hc in Hrun. unfold mret, M_ret in Hrun. simplify_eq.
  destruct (decide (j = n)) as [->|Hne].
  - rewrite lookup_insert_eq, <-Hc.
    destruct (decide (m < n)%nat) as [Hlt|Hge].
    + destruct (IH m Hlt) as (m' & Htc & Heq & Hsome).
      exists m'. split_and!; [|done..]. by eapply tc_l.
    + exists m. split_and!; [by apply tc_once|apply Hlater; lia|by eapply Hdom].
  - rewrite lookup_insert_ne by done. apply IH. lia.
Qed.

Section table_extras.
Context `{PySetOrder} `{HN : HostNames}.

(** X10. The stored index table follows the merge map, possibly for more than
    one step: when the merge completes, the stored entry of every original id
    [i] is the compact id of a keeper [m] reached from [i] by one or more
    steps of the merge map, and the rebuilt vertex with that compact id has
    the original coordinate of [m]. *)
Theorem stored_table_follows_merge_map obj threshold h obj' h' :
  smart_merge_topo obj threshold h = (Ok obj', h') →
  ∃ groups mm d,
    cluster (vertices (data obj)) threshold = Ok groups ∧
    build_merge_map groups = Ok mm ∧
    load_merge_data obj' = Some d ∧
    ∀ i, (i < length (vertices (data obj)))%nat →
      ∃ m, tc (merge_step mm) i m ∧
           m ∈ (map_img mm : gset nat) ∧
           mapping d !! str i = Some (Z.of_nat (rank (map_img mm) m)) ∧
           vertices (data obj') !! rank (map_img mm) m = vertices (data obj) !! m.
Proof.
  intros Hrun.
  destruct (smart_merge_topo_inv _ _ _ _ _ Hrun)
    as (mm & nv & im0 & im & nf & Hmm & Hkeep & Hremap & Hfaces & -> & ->).
  destruct (merge_tables_facts _ _ _ _ _ _ _ _ Hmm Hkeep Hremap)
    as (_ & _ & Him0 & Hnv & _ & _).
  assert (∀ key m, mm !! key = Some m → is_Some (im0 !! m)) as Hdom.
  { intros key m Hm. rewrite Him0, decide_True; [eauto|].
    apply elem_of_map_img. eauto. }
  exists (groups_of (vertices (data obj)) threshold), mm. eexists.
  split_and!; [by eapply smart_merge_topo_cluster|done|apply load_merged_object|].
  intros i Hi. simpl.
  destruct (remap_chain mm im0 _ h im h Hdom Hremap i Hi) as (m & Htc & Heq & Hsome).
  rewrite Him0 in Heq, Hsome.
  destruct (decide (m ∈ _)) as [Hin|]; [|by destruct Hsome].
  exists m. split_and!; [done|done| |by apply Hnv].
  by rewrite stored_mapping_lookup, Heq.
Qed.

(** X11. When no id is listed by two groups, a completed merge behaves as the
    plain composition: every original id is sent by the merge map to the
    first listed element of its one group, that keeper is sent to itself, the
    stored entry of the id is the keeper's compact id and the rebuilt vertex
    there has the keeper's original coordinate; every compact id is stored
    for some original id; and there are as many rebuilt vertices as groups. *)
Theorem disjoint_groups_compose obj threshold h obj' h' groups :
  smart_merge_topo obj threshold h = (Ok obj', h') →
  cluster (vertices (data obj)) threshold = Ok groups →
  groups_disjoint groups →
  ∃ mm d,
    build_merge_map groups = Ok mm ∧
    load_merge_data obj' = Some d ∧
    (∀ i, (i < length (vertices (data obj)))%nat →
       ∃ g k, g ∈ groups ∧ i ∈ g ∧
              head g = Some k ∧
              mm !! str i = Some k ∧ mm !! str k = Some k ∧
              mapping d !! str i = Some (Z.of_nat (rank (map_img mm) k)) ∧
              vertices (data obj') !! rank (map_img mm) k
                = vertices (data obj) !! k) ∧
    (∀ c, (c < length (vertices (data obj')))%nat →
       ∃ i, (i < length (vertices (data obj)))%nat ∧
            mapping d !! str i = Some (Z.of_nat c)) ∧
    length (vertices (data obj')) = length groups.
Proof.
  intros Hrun Hcl Hdisj. apply cluster_Ok in Hcl as ->.
  destruct (smart_merge_topo_inv _ _ _ _ _ Hrun)
    as (mm & nv & im0 & im & nf & Hmm & Hkeep & Hremap & Hfaces & -> & ->).
  destruct (merge_tables_facts _ _ _ _ _ _ _ _ Hmm Hkeep Hremap)
    as (_ & Hlen & Him0 & Hnv & Hall & Hinv).
  pose proof (λ k, keeper_set_valid _ _ _ k Hmm) as Hvalid.
  pose proof (rank_size (map_img mm) _ Hvalid) as Hsz.
  set (verts := vertices (data obj)) in *.
  set (groups := groups_of verts threshold) in *.
  pose proof (merge_map_ok_nonempty _ _ _ Hmm) as Hne.
  (* an id of a group is sent to the head of that group *)
  assert (∀ n g i, groups !! n = Some g → i ∈ g → mm !! str i = head g) as Hhead.
  { intros n g i Hn Hi.
    destruct (last_group_with_exists i groups) as [g' Hg'].
    { exists g. split; [by eapply list_elem_of_lookup_2|done]. }
    destruct (merge_map_last_group _ _ _ _ _ Hmm Hg') as (k & Hk & ->).
    destruct Hg' as (gs1 & gs2 & Hgs & Hi' & _).
    assert (groups !! length gs1 = Some g') as Hn'.
    { rewrite Hgs. by apply list_lookup_middle. }
    rewrite (Hdisj _ _ _ _ _ Hn Hn' Hi Hi') in Hn. by simplify_eq. }
  assert (∀ n g, groups !! n = Some g → ∃ k, head g = Some k ∧ k ∈ g) as Hhd.
  { intros n g Hn. rewrite Forall_forall in Hne.
    destruct g as [|k g]; [by destruct (Hne [] (list_elem_of_lookup_2 _ _ _ Hn))|].
    exists k. split; [done|]. by apply elem_of_cons; left. }
  assert (∀ k, k ∈ (map_img mm : gset nat) → mm !! str k = Some k) as Hfix.
  { intros k (key & Hkey)%elem_of_map_img.
    destruct (merge_map_values _ _ _ _ _ Hmm Hkey) as [Hm|(g & Hg & Hk)].
    { by rewrite lookup_empty in Hm. }
    apply list_elem_of_lookup in Hg as [n Hn].
    destruct (Hhd n g Hn) as (k' & Hk' & Hin). simplify_eq.
    by rewrite (Hhead n g k Hn Hin). }
  exists mm. eexists. split_and!; [done|apply load_merged_object|..]; simpl.
  - intros i Hi. destruct (Hall i Hi) as [k Hk].
    destruct (merge_map_entry_inv _ _ _ _ Hmm Hk) as (g & (gs1 & gs2 & Hgs & Hig & _) & Hh).
    assert (k ∈ (map_img mm : gset nat)) as Hkin by (apply elem_of_map_img; eauto).
    exists g, k. split_and!; [|done|done|done|by apply Hfix| |by apply Hnv].
    + fold groups. rewrite Hgs. apply elem_of_app. right. by apply elem_of_cons; left.
    + rewrite stored_mapping_lookup.
      rewrite (remap_via _ _ _ _ Hinv i k Hi Hk (Hfix k Hkin)).
      by rewrite Him0, decide_True.
  - intros c Hc. rewrite Hlen, <-Hsz in Hc.
    destruct (rank_surj _ _ _ Hc) as (k & Hk & Hkin & <-).
    exists k. split; [done|].
    rewrite stored_mapping_lookup.
    rewrite (remap_own _ _ _ _ Hinv k Hk (Hfix k Hkin)).
    by rewrite Him0, decide_True.
  - rewrite Hlen.
    set (heads := (λ g, default 0%nat (head g)) <$> groups).
    assert (NoDup heads) as Hnd.
    { apply NoDup_alt. intros a b k Ha Hb. unfold heads in Ha, Hb.
      rewrite list_lookup_fmap in Ha, Hb.
      destruct (groups !! a) as [ga|] eqn:Hga; [|done].
      destruct (groups !! b) as [gb|] eqn:Hgb; [|done].
      destruct (Hhd a ga Hga) as (ka & Hka & Hina).
      destruct (Hhd b gb Hgb) as (kb & Hkb & Hinb).
      simpl in Ha, Hb. rewrite Hka in Ha. rewrite Hkb in Hb. simplify_eq/=.
      by eapply Hdisj. }
    assert ((map_img mm : gset nat) = list_to_set heads) as ->.
    { apply set_eq. intros k. rewrite elem_of_list_to_set. unfold heads.
      rewrite list_elem_of_fmap. split.
      - intros (key & Hkey)%elem_of_map_img.
        destruct (merge_map_values _ _ _ _ _ Hmm Hkey) as [Hm|(g & Hg & Hk)].
        { by rewrite lookup_empty in Hm. }
        exists g. by rewrite Hk.
      - intros (g & -> & Hg). apply list_elem_of_lookup in Hg as [n Hn].
        destruct (Hhd n g Hn) as (k & Hk & Hin). rewrite Hk. simpl.
        apply elem_of_map_img. exists (str k). by rewrite (Hhead n g k Hn Hin). }
    rewrite size_list_to_set by done. unfold heads. by rewrite length_fmap.
Qed.

(** A merge then a restore with nothing moved in between: the restore ends
    normally and vertex [i] is the rebuilt vertex the stored table names. *)
Lemma restore_after_merge obj nv nf im h h0 :
  (∀ i, (i < length (vertices (data obj)))%nat →
        ∃ c, im !! i = Some c ∧ (c < length nv)%nat) →
  ∃ rc,
    smart_restore_topo (merged_object obj nv nf im h) h0 =
      (Ok tt,
       let me := mkMesh (assign_name (mesh_name <$> data_meshes h0)
                                     (obj_name obj +:+ "_restored"))
                        rc (polygons (data obj)) in
       let ob := mkObject (assign_name (obj_name <$> data_objects h0)
                                       (obj_name obj +:+ "_restored")) me ∅ in
       mkHost (data_meshes h0 ++ [me]) (data_objects h0 ++ [ob])
              (collection_objects h0 ++ [ob])
              (stdout h0 ++ ["Smart restore complete."%string])) ∧
    length rc = length (vertices (data obj)) ∧
    ∀ i c, (i < length (vertices (data obj)))%nat → im !! i = Some c →
           rc !! i = nv !! c.
Proof.
  intros Hall.
  set (d := mkMergeData (kmap str (Z.of_nat <$> im)) (vertices (data obj))
                        (polygons (data obj))).
  destruct (smart_restore_topo_valid (merged_object obj nv nf im h) d h0)
    as (rc & Hrestore & Hrclen & Hrc).
  { apply load_merged_object. }
  { intros i Hi. simpl in Hi. destruct (Hall i Hi) as (c & Hc & Hlt).
    exists (Z.of_nat c). simpl. rewrite stored_mapping_lookup, Hc.
    split; [done|lia]. }
  exists rc. split_and!; [exact Hrestore|done|].
  intros i c Hi Hc. rewrite (Hrc i (Z.of_nat c)); [by rewrite Nat2Z.id|done|].
  simpl. by rewrite stored_mapping_lookup, Hc.
Qed.

(** With threshold 0 one step of the merge map joins two ids at the same
    position. *)
Lemma merge_step_zero verts mm a b :
  build_merge_map (groups_of verts 0) = Ok mm →
  tc (merge_step mm) a b → verts !! a = verts !! b.
Proof.
  intros Hmm Htc. induction Htc as [a b Hab|a b c Hab _ IH]; [|rewrite <-IH].
  all: destruct (merge_map_entry_inv _ _ _ _ Hmm Hab)
         as (g & (gs1 & gs2 & Hgs & Hi & _) & Hh).
  all: assert (g ∈ groups_of verts 0) as Hg
         by (rewrite Hgs; apply elem_of_app; right; by apply elem_of_cons; left).
  all: assert (b ∈ g) as Hbg
         by (destruct g; simplify_eq/=; by apply elem_of_cons; left).
  all: apply cluster_group_ball in Hg as (s & co & _ & ->).
  all: apply elem_of_ball_group in Hi as (p & Hp & ->%in_range_zero).
  all: apply elem_of_ball_group in Hbg as (q & Hq & ->%in_range_zero).
  all: congruence.
Qed.

(** X12. With threshold 0 the round trip is exact: on a mesh whose faces name
    existing vertices, merge followed at once by restore completes and the
    restored mesh has exactly the original coordinate list and the original
    face list (vertices at the same position are welded and come back at that
    same position). *)
Theorem zero_threshold_roundtrip obj h :
  faces_valid (length (vertices (data obj))) (polygons (data obj)) →
  ∃ obj' h',
    smart_merge_topo obj 0 h = (Ok obj', h') ∧
    smart_restore_topo obj' h' =
      (Ok tt,
       let me := mkMesh (assign_name (mesh_name <$> data_meshes h')
                                     (obj_name obj +:+ "_restored"))
                        (vertices (data obj)) (polygons (data obj)) in
       let ob := mkObject (assign_name (obj_name <$> data_objects h')
                                       (obj_name obj +:+ "_restored")) me ∅ in
       mkHost (data_meshes h' ++ [me]) (data_objects h' ++ [ob])
              (collection_objects h' ++ [ob])
              (stdout h' ++ ["Smart restore complete."%string])).
Proof.
  intros Hfv.
  destruct (smart_merge_topo_total obj 0 h) as
    (mm & nv & im0 & im & nf & Hmm & Hkeep & Hremap & Hfaces & Hrun); [lia|done|].
  destruct (merge_tables_facts _ _ _ _ _ _ _ _ Hmm Hkeep Hremap)
    as (_ & Hlen & Him0 & Hnv & _ & Hinv).
  pose proof (λ k, keeper_set_valid _ _ _ k Hmm) as Hvalid.
  pose proof (rank_size (map_img mm) _ Hvalid) as Hsz.
  assert (∀ key m, mm !! key = Some m → is_Some (im0 !! m)) as Hdom.
  { intros key m Hm. rewrite Him0, decide_True; [eauto|].
    apply elem_of_map_img. eauto. }
  assert (∀ i, (i < length (vertices (data obj)))%nat →
            ∃ c, im !! i = Some c ∧ (c < length nv)%nat ∧
                 nv !! c = vertices (data obj) !! i) as Hpos.
  { intros i Hi.
    destruct (remap_chain mm im0 _ h im h Hdom Hremap i Hi) as (m & Htc & Heq & Hsome).
    rewrite Him0 in Heq, Hsome.
    destruct (decide (m ∈ _)) as [Hin|]; [|by destruct Hsome].
    exists (rank (map_img mm) m). split_and!; [done| |].
    - rewrite Hlen, <-Hsz. apply rank_lt; [by apply Hvalid|done].
    - rewrite (Hnv m Hin). symmetry. by eapply merge_step_zero. }
  destruct (restore_after_merge obj nv nf im h (merged_host obj nv nf h))
    as (rc & Hrestore & Hrclen & Hrc).
  { intros i Hi. destruct (Hpos i Hi) as (c & ? & ? & _). eauto. }
  assert (rc = vertices (data obj)) as <-.
  { apply list_eq. intros i.
    destruct (decide (i < length (vertices (data obj)))%nat) as [Hi|Hi].
    - destruct (Hpos i Hi) as (c & Hc & _ & <-). by apply Hrc.
    - rewrite !lookup_ge_None_2; [done|lia..]. }
  eexists _, _. split; [exact Hrun|exact Hrestore].
Qed.

End table_extras.

Lemma stored_table_follows_merge_map_witness :
  ∃ obj' h',
    smart_merge_topo (H:=ascending_order) (HN:=suffix_names) overlap6 10 host0 = (Ok obj', h') ∧
    ∃ groups mm d,
      cluster (H:=ascending_order) (vertices (data overlap6)) 10 = Ok groups ∧
      build_merge_map groups = Ok mm ∧
      load_merge_data obj' = Some d ∧
      ∀ i, (i < length (vertices (data overlap6)))%nat →
        ∃ m, tc (merge_step mm) i m ∧
             m ∈ (map_img mm : gset nat) ∧
             mapping d !! str i = Some (Z.of_nat (rank (map_img mm) m)) ∧
             vertices (data obj') !! rank (map_img mm) m
               = vertices (data overlap6) !! m.
Proof.
  eexists _, _. split; [by vm_compute|].
  eapply (stored_table_follows_merge_map (H:=ascending_order) (HN:=suffix_names) overlap6 10 host0).
  by vm_compute.
Defined.

Lemma quad4_groups_disjoint : groups_disjoint [[0;1];[2;3]]%nat.
Proof.
  intros k1 k2 g1 g2 i H1 H2 Hi1 Hi2.
  destruct k1 as [|[|k1]], k2 as [|[|k2]]; simplify_eq/=; try done.
  all: repeat (apply elem_of_cons in Hi1 as [->|Hi1]);
       try (by apply elem_of_nil in Hi1).
  all: repeat (apply elem_of_cons in Hi2 as [Hi2|Hi2]); try lia;
       by apply elem_of_nil in Hi2.
Defined.

Lemma disjoint_groups_compose_witness :
  ∃ obj' h' groups,
    smart_merge_topo (H:=ascending_order) (HN:=suffix_names) quad4 10 host0
      = (Ok obj', h') ∧
    cluster (H:=ascending_order) (vertices (data quad4)) 10 = Ok groups ∧
    groups_disjoint groups ∧
    ∃ mm d,
      build_merge_map groups = Ok mm ∧
      load_merge_data obj' = Some d ∧
      (∀ i, (i < length (vertices (data quad4)))%nat →
         ∃ g k, g ∈ groups ∧ i ∈ g ∧
                head g = Some k ∧
                mm !! str i = Some k ∧ mm !! str k = Some k ∧
                mapping d !! str i = Some (Z.of_nat (rank (map_img mm) k)) ∧
                vertices (data obj') !! rank (map_img mm) k
                  = vertices (data quad4) !! k) ∧
      (∀ c, (c < length (vertices (data obj')))%nat →
         ∃ i, (i < length (vertices (data quad4)))%nat ∧
              mapping d !! str i = Some (Z.of_nat c)) ∧
      length (vertices (data obj')) = length groups.
Proof.
  eexists _, _, _. split; [by vm_compute|]. split; [vm_compute; reflexivity|].
  split; [exact quad4_groups_disjoint|].
  eapply (disjoint_groups_compose (H:=ascending_order) (HN:=suffix_names)
            quad4 10 host0);
    [by vm_compute|by vm_compute|exact quad4_groups_disjoint].
Defined.

Lemma zero_threshold_roundtrip_witness :
  faces_valid (length (vertices (data twin2))) (polygons (data twin2)) ∧
  ∃ obj' h',
    smart_merge_topo (H:=ascending_order) (HN:=suffix_names) twin2 0 host0 = (Ok obj', h') ∧
    smart_restore_topo (HN:=suffix_names) obj' h' =
      (Ok tt,
       let me := mkMesh (assign_name (HostNames:=suffix_names)
                                     (mesh_name <$> data_meshes h')
                                     (obj_name twin2 +:+ "_restored"))
                        (vertices (data twin2)) (polygons (data twin2)) in
       let ob := mkObject (assign_name (HostNames:=suffix_names)
                                       (obj_name <$> data_objects h')
                                       (obj_name twin2 +:+ "_restored")) me ∅ in
       mkHost (data_meshes h' ++ [me]) (data_objects h' ++ [ob])
              (collection_objects h' ++ [ob])
              (stdout h' ++ ["Smart restore complete."%string])).
Proof.
  assert (faces_valid (length (vertices (data twin2))) (polygons (data twin2))) as Hfv.
  { intros f i Hf. simpl in Hf. by apply elem_of_nil in Hf. }
  split; [exact Hfv|].
  apply (zero_threshold_roundtrip (H:=ascending_order) (HN:=suffix_names) twin2 host0 Hfv).
Defined.

(** * Properties of the operators and of the panel *)

(** X13. Run on an active mesh object whose faces name existing vertices,
    with a non-negative threshold, the merge operator never raises: it
    returns FINISHED, the active object is the merged object, and the host is
    the one the merge leaves. *)
Theorem merge_operator_finishes `{PySetOrder} `{HN : HostNames} a threshold h :
  ob_type a = "MESH"%string →
  0 ≤ threshold →
  faces_valid (length (vertices (data (ob_object a)))) (polygons (data (ob_object a))) →
  ∃ obj' h',
    smart_merge_topo (ob_object a) threshold h = (Ok obj', h') ∧
    SmartMergeTopo_execute threshold (Some a) h
      = (Ok (FINISHED, Some (mkActive "MESH" obj')), h') ∧
    is_Some (load_merge_data obj') ∧
    length (data_meshes h') = S (length (data_meshes h)).
Proof.
  intros Htype Hr Hfv.
  destruct (smart_merge_topo_total (ob_object a) threshold h Hr Hfv)
    as (mm & nv & im0 & im & nf & _ & _ & _ & _ & Hrun).
  eexists _, _. split; [exact Hrun|].
  unfold SmartMergeTopo_execute. rewrite bool_decide_eq_true_2 by done.
  unfold mbind, M_bind. rewrite Hrun, Htype. split_and!; [done| |].
  - rewrite load_merged_object. eauto.
  - simpl. rewrite length_app. simpl. lia.
Qed.

Lemma merge_operator_finishes_witness :
  ob_type (mesh_active quad4) = "MESH"%string ∧
  0 ≤ 10 ∧
  faces_valid (length (vertices (data (ob_object (mesh_active quad4)))))
              (polygons (data (ob_object (mesh_active quad4)))) ∧
  ∃ obj' h',
    smart_merge_topo (H:=ascending_order) (HN:=suffix_names) (ob_object (mesh_active quad4)) 10 host0
      = (Ok obj', h') ∧
    SmartMergeTopo_execute (H:=ascending_order) (HN:=suffix_names) 10 (Some (mesh_active quad4)) host0
      = (Ok (FINISHED, Some (mkActive "MESH" obj')), h') ∧
    is_Some (load_merge_data obj') ∧
    length (data_meshes h') = S (length (data_meshes host0)).
Proof.
  assert (faces_valid (length (vertices (data (ob_object (mesh_active quad4)))))
                      (polygons (data (ob_object (mesh_active quad4))))) as Hfv.
  { intros f i Hf Hi. simpl in *.
    apply list_elem_of_singleton in Hf as ->.
    repeat (apply elem_of_cons in Hi as [->|Hi]; [lia|]). by apply elem_of_nil in Hi. }
  split; [done|]. split; [lia|]. split; [exact Hfv|].
  apply (merge_operator_finishes (H:=ascending_order) (HN:=suffix_names) (mesh_active quad4) 10 host0);
    [done|lia|exact Hfv].
Defined.

(** X14. The panel and the two operators agree on their target: for an active
    mesh object the panel shows the two operator buttons, named as the
    operators are, and neither operator can return CANCELLED; in every other
    case (no active object, or one that is not a mesh) the panel shows the
    label only and both operators return CANCELLED leaving the host and the
    active object exactly as they were. *)
Theorem panel_matches_operators `{PySetOrder} `{HN : HostNames} active threshold h :
  (∃ a, active = Some a ∧ ob_type a = "MESH"%string ∧
        SmartMergeTopoPanel_draw active
          = [layout_operator SmartMergeTopo_bl_idname;
             layout_operator SmartRestoreTopo_bl_idname] ∧
        (∀ st act h', SmartMergeTopo_execute threshold active h = (Ok (st, act), h') →
                      st = FINISHED) ∧
        (∀ st h', SmartRestoreTopo_execute active h = (Ok st, h') → st = FINISHED)) ∨
  ((∀ a, active = Some a → ob_type a ≠ "MESH"%string) ∧
   SmartMergeTopoPanel_draw active = [layout_label "Select a mesh object."] ∧
   SmartMergeTopo_execute threshold active h = (Ok (CANCELLED, active), h) ∧
   SmartRestoreTopo_execute active h = (Ok CANCELLED, h)).
Proof.
  destruct active as [a|].
  - destruct (decide (ob_type a = "MESH"%string)) as [Hm|Hm].
    + left. exists a. unfold SmartMergeTopoPanel_draw, SmartMergeTopo_execute,
        SmartRestoreTopo_execute.
      rewrite !bool_decide_eq_true_2 by done. split_and!; [done..| |].
      * intros st act h'. unfold mbind, M_bind.
        destruct (smart_merge_topo _ _ _) as [[obj'|e] h1]; [|done].
        by intros [= <- _ _].
      * intros st h'. unfold mbind, M_bind.
        destruct (smart_restore_topo _ _) as [[[]|e] h1]; [|done].
        by intros [= <- _].
    + right. unfold SmartMergeTopoPanel_draw, SmartMergeTopo_execute,
        SmartRestoreTopo_execute.
      rewrite !bool_decide_eq_false_2 by done. split_and!; [|done..].
      by intros a' [= <-].
  - right. split_and!; [|done..]. by intros a' [=].
Qed.

(** X15. The restore operator returns FINISHED on any active mesh object that
    has no merge record, although nothing was restored: the host gains the
    console line and nothing else, so the status does not tell a restore from
    a no-op. *)
Theorem restore_operator_reports_finished `{HN : HostNames} a h :
  ob_type a = "MESH"%string →
  load_merge_data (ob_object a) = None →
  SmartRestoreTopo_execute (Some a) h =
    (Ok FINISHED,
     mkHost (data_meshes h) (data_objects h) (collection_objects h)
            (stdout h ++ ["No smart merge data found."%string])).
Proof.
  intros Htype Hnone. unfold SmartRestoreTopo_execute.
  rewrite bool_decide_eq_true_2 by done.
  unfold mbind, M_bind, smart_restore_topo. by rewrite Hnone.
Qed.

Lemma restore_operator_reports_finished_witness :
  ob_type (mesh_active line3) = "MESH"%string ∧
  load_merge_data (ob_object (mesh_active line3)) = None ∧
  SmartRestoreTopo_execute (HN:=suffix_names) (Some (mesh_active line3)) host0 =
    (Ok FINISHED,
     mkHost (data_meshes host0) (data_objects host0) (collection_objects host0)
            (stdout host0 ++ ["No smart merge data found."%string])).
Proof.
  split; [done|]. split; [by vm_compute|].
  apply (restore_operator_reports_finished (HN:=suffix_names) (mesh_active line3) host0);
    [done|by vm_compute].
Defined.

(** * Set order and threshold zero *)

(** The clustering loop under two set orders: the same ids are visited and
    the groups list the same ids, group by group. *)
Lemma cluster_state_any_order (H1 H2 : PySetOrder) verts threshold ivs :
  (cluster_state (H:=H1) verts threshold ivs).1
    = (cluster_state (H:=H2) verts threshold ivs).1 ∧
  Forall2 (≡ₚ) (cluster_state (H:=H1) verts threshold ivs).2
               (cluster_state (H:=H2) verts threshold ivs).2.
Proof.
  induction ivs as [|[i co] ivs IH] using rev_ind; [by split; [|constructor]|].
  unfold cluster_state in *. rewrite !foldl_app. simpl.
  destruct (foldl (group_step (H:=H1) _ _) _ ivs) as [vis1 gs1].
  destruct (foldl (group_step (H:=H2) _ _) _ ivs) as [vis2 gs2].
  destruct IH as [Hvis Hgs]. simpl in Hvis, Hgs. subst vis2.
  unfold group_step. destruct (decide (i ∈ vis1)); [done|]. simpl.
  assert (list_of_set (PySetOrder:=H1) (ball (build_tree verts) co threshold).*2
          ≡ₚ list_of_set (PySetOrder:=H2) (ball (build_tree verts) co threshold).*2)
    as Hperm.
  { apply NoDup_Permutation; [apply list_of_set_NoDup..|].
    intros x. by rewrite !list_of_set_elem. }
  split.
  - rewrite !visited_add_all. f_equal. apply set_eq. intros x.
    by rewrite !elem_of_list_to_set, Hperm.
  - apply Forall2_app; [done|]. by repeat constructor.
Qed.

(** X16. Which ids are grouped together does not depend on the order a set
    is iterated in: under any two set orders the clustering loop either
    raises the same exception, or returns in both cases, with the same
    number of groups, the groups at the same position listing the same ids
    (each once); only the order inside a group, hence its keeper, can
    differ. *)
Theorem cluster_members_any_order (H1 H2 : PySetOrder) verts threshold :
  match cluster (H:=H1) verts threshold, cluster (H:=H2) verts threshold with
  | Ok groups1, Ok groups2 =>
      length groups1 = length groups2 ∧
      Forall2 (≡ₚ) groups1 groups2 ∧
      ∀ n g1 g2 j,
        groups1 !! n = Some g1 → groups2 !! n = Some g2 → (j ∈ g1 ↔ j ∈ g2)
  | Raise e1, Raise e2 => e1 = e2
  | _, _ => False
  end.
Proof.
  destruct (decide (0 ≤ threshold)) as [Hr|Hneg].
  - rewrite !cluster_total by done.
    destruct (cluster_state_any_order H1 H2 verts threshold (enumerate verts))
      as [_ Hgs].
    change (Forall2 (≡ₚ) (groups_of (H:=H1) verts threshold)
                         (groups_of (H:=H2) verts threshold)) in Hgs.
    split_and!; [by eapply Forall2_length|done|].
    intros n g1 g2 j Hg1 Hg2.
    destruct (Forall2_lookup_l _ _ _ _ _ Hgs Hg1) as (g2' & Hg2' & Hperm).
    simplify_eq. by rewrite Hperm.
  - destruct verts as [|co verts].
    + simpl. split_and!; [done|constructor|]. intros n g1 g2 j Hg1. done.
    + by rewrite !cluster_negative by (done || lia).
Qed.

Section zero_extras.
Context `{PySetOrder} `{HN : HostNames}.

(** X17. With threshold 0 a completed merge welds exactly the vertices that
    sit at the same position: the rebuilt vertex list has no repeated
    coordinate and holds the same coordinates as the original list. *)
Theorem zero_threshold_welds_coincident obj h obj' h' :
  smart_merge_topo obj 0 h = (Ok obj', h') →
  NoDup (vertices (data obj')) ∧
  ∀ p, p ∈ vertices (data obj') ↔ p ∈ vertices (data obj).
Proof.
  intros Hrun.
  destruct (smart_merge_topo_inv _ _ _ _ _ Hrun)
    as (mm & nv & im0 & im & nf & Hmm & Hkeep & Hremap & Hfaces & -> & ->).
  destruct (merge_tables_facts _ _ _ _ _ _ _ _ Hmm Hkeep Hremap)
    as (_ & Hlen & Him0 & Hnv & Hall & _).
  pose proof (λ k, keeper_set_valid _ _ _ k Hmm) as Hvalid.
  pose proof (rank_size (map_img mm) _ Hvalid) as Hsz. simpl.
  set (verts := vertices (data obj)) in *.
  (* every rebuilt vertex is the coordinate of a keeper *)
  assert (∀ c p, nv !! c = Some p →
            ∃ k, k ∈ (map_img mm : gset nat) ∧ c = rank (map_img mm) k ∧
                 verts !! k = Some p) as Hkeeper.
  { intros c p Hc. pose proof (lookup_lt_Some _ _ _ Hc) as Hlt.
    rewrite Hlen, <-Hsz in Hlt.
    destruct (rank_surj _ _ _ Hlt) as (k & _ & Hk & <-).
    exists k. split_and!; [done..|]. by rewrite <-Hnv. }
  (* a keeper is the head of the ball of its own position *)
  assert (∀ k p, k ∈ (map_img mm : gset nat) → verts !! k = Some p →
            head (ball_group verts 0 p) = Some k) as Hhead.
  { intros k p (key & Hkey)%elem_of_map_img Hp.
    destruct (merge_map_values _ _ _ _ _ Hmm Hkey) as [Hm|(g & Hg & Hk)].
    { by rewrite lookup_empty in Hm. }
    apply cluster_group_ball in Hg as (s & co & _ & ->).
    assert (k ∈ ball_group verts 0 co) as Hin.
    { destruct (ball_group verts 0 co); simplify_eq/=. by apply elem_of_cons; left. }
    apply elem_of_ball_group in Hin as (p' & Hp' & ->%in_range_zero).
    by simplify_eq. }
  split.
  - apply NoDup_alt. intros c1 c2 p Hc1 Hc2.
    destruct (Hkeeper c1 p Hc1) as (k1 & Hk1 & -> & Hp1).
    destruct (Hkeeper c2 p Hc2) as (k2 & Hk2 & -> & Hp2).
    pose proof (Hhead k1 p Hk1 Hp1). pose proof (Hhead k2 p Hk2 Hp2).
    by simplify_eq.
  - intros p. split.
    + intros [c Hc]%list_elem_of_lookup.
      destruct (Hkeeper c p Hc) as (k & _ & _ & Hp).
      by eapply list_elem_of_lookup_2.
    + intros [i Hi]%list_elem_of_lookup.
      destruct (Hall i) as [k Hk]; [by eapply lookup_lt_Some|].
      assert (k ∈ (map_img mm : gset nat)) as Hkin by (apply elem_of_map_img; eauto).
      apply (list_elem_of_lookup_2 _ (rank (map_img mm) k)).
      rewrite (Hnv k Hkin), <-Hi. symmetry.
      eapply merge_step_zero; [done|]. by apply tc_once.
Qed.

End zero_extras.

Lemma zero_threshold_welds_coincident_witness :
  ∃ obj' h',
    smart_merge_topo (H:=ascending_order) (HN:=suffix_names) twin2 0 host0 = (Ok obj', h') ∧
    NoDup (vertices (data obj')) ∧
    ∀ p, p ∈ vertices (data obj') ↔ p ∈ vertices (data twin2).
Proof.
  eexists _, _. split; [by vm_compute|].
  eapply (zero_threshold_welds_coincident (H:=ascending_order) (HN:=suffix_names) twin2 host0).
  by vm_compute.
Defined.
